(** * Countries & Capitals quiz: a shallow embedding of [src/app/page.tsx]

    The page is one React component, [Home], around a handful of pure
    helpers ([normalizeAnswer], [titleize], [shuffle], [buildCountries],
    [buildGeoQuestion], [buildPool]).  This development embeds the helpers
    as functions, the component's hook cells as a record, and its event
    handlers as transitions on that record, and proves the properties the
    specification states about them.

    Conventions.
    - A JavaScript string is the list of its UTF-16 code units ([jsstring]).
    - The built-ins of the JavaScript engine the page calls
      ([String.prototype.normalize], [toLowerCase], [toUpperCase],
      [parseInt], [String]) are not code of the page: they are the fields
      of the class [JsRuntime].  Theorems are stated for every runtime;
      [latin1Runtime] is a concrete one, exact on strings of code units
      U+0000..U+00FF, used to evaluate the page on concrete inputs.
    - [Math.random] is a source of draws threaded through the functions
      that call it ([Rand]).
    - JavaScript numbers that the page only counts with are [nat]; the one
      place where it divides and multiplies them (the accuracy display) is
      modelled with IEEE 754 binary64 ([PrimFloat]). *)

From Stdlib Require Import String Ascii NArith ZArith Lia DecimalString.
From Stdlib Require Import Floats Uint63.
From Stdlib Require Import Reals Lra.
From stdpp Require Import base option list.

Local Open Scope N_scope.

(** ** JavaScript strings *)

Definition jsstring : Type := list N.

(** An ASCII literal of the source, as code units. *)
Definition lit (s : string) : jsstring :=
  List.map N_of_ascii (list_ascii_of_string s).

(** [a === b] on strings. *)
Definition str_eqb (a b : jsstring) : bool := bool_decide (a = b).

(** [!s] is true of the empty string only. *)
Definition str_truthy (s : jsstring) : bool :=
  match s with [] => false | _ :: _ => true end.

(** [s.split(sep)] for a one-unit separator: never the empty list. *)
Fixpoint split_on (sep : N) (s : jsstring) : list jsstring :=
  match s with
  | [] => [[]]
  | c :: s' =>
      if N.eqb c sep then [] :: split_on sep s'
      else match split_on sep s' with
           | [] => [[c]]
           | p :: ps => (c :: p) :: ps
           end
  end.

(** [parts.join(sep)]. *)
Fixpoint join (sep : jsstring) (parts : list jsstring) : jsstring :=
  match parts with
  | [] => []
  | [p] => p
  | p :: ps => p ++ sep ++ join sep ps
  end.

(** [s.includes(t)]: [t] occurs in [s] as a run of consecutive code units. *)
Fixpoint starts_with (t s : jsstring) : bool :=
  match t, s with
  | [], _ => true
  | _ :: _, [] => false
  | a :: t', b :: s' => N.eqb a b && starts_with t' s'
  end.

Fixpoint includes (s t : jsstring) : bool :=
  starts_with t s ||
  match s with
  | [] => false
  | _ :: s' => includes s' t
  end.

(** [s.charAt(0)]: the first code unit as a string, or the empty string. *)
Definition charAt0 (s : jsstring) : jsstring :=
  match s with [] => [] | c :: _ => [c] end.

(** ** The engine's built-ins *)

(** A JavaScript number that is an integer, or [NaN] ([None]). *)
Definition jsint : Type := option Z.

Class JsRuntime := {
  (** [s.normalize("NFD")] *)
  normalizeNFD : jsstring -> jsstring;
  (** [s.toLowerCase()] *)
  toLowerCase : jsstring -> jsstring;
  (** [s.toUpperCase()] *)
  toUpperCase : jsstring -> jsstring;
  (** [parseInt(s, 10)] *)
  parseInt10 : jsstring -> jsint;
  (** [String(n)] *)
  numberToString : jsint -> jsstring
}.

(** *** A concrete runtime for Latin-1 text

    Exact on strings whose code units are below U+0100 (and, for
    [parseInt]/[String], on integers below 2^53 in magnitude); other code
    units are left as they are. *)
Module Latin1.

Definition between (lo hi c : N) : bool := (lo <=? c) && (c <=? hi).

(** Canonical decomposition of the letters of the Latin-1 Supplement:
    position in the row of 32, to base letter (as an offset from A or a)
    and combining mark. *)
Definition decomposition (k : N) (lower : bool) : option (N * N) :=
  match k with
  | 0 => Some (0, 0x300) | 1 => Some (0, 0x301) | 2 => Some (0, 0x302)
  | 3 => Some (0, 0x303) | 4 => Some (0, 0x308) | 5 => Some (0, 0x30A)
  | 7 => Some (2, 0x327)
  | 8 => Some (4, 0x300) | 9 => Some (4, 0x301) | 10 => Some (4, 0x302)
  | 11 => Some (4, 0x308)
  | 12 => Some (8, 0x300) | 13 => Some (8, 0x301) | 14 => Some (8, 0x302)
  | 15 => Some (8, 0x308)
  | 17 => Some (13, 0x303)
  | 18 => Some (14, 0x300) | 19 => Some (14, 0x301) | 20 => Some (14, 0x302)
  | 21 => Some (14, 0x303) | 22 => Some (14, 0x308)
  | 25 => Some (20, 0x300) | 26 => Some (20, 0x301) | 27 => Some (20, 0x302)
  | 28 => Some (20, 0x308)
  | 29 => Some (24, 0x301)
  | 31 => if lower then Some (24, 0x308) else None
  | _ => None
  end.

Definition nfd_unit (c : N) : jsstring :=
  if between 0xC0 0xDF c then
    match decomposition (c - 0xC0) false with
    | Some (b, m) => [0x41 + b; m]
    | None => [c]
    end
  else if between 0xE0 0xFF c then
    match decomposition (c - 0xE0) true with
    | Some (b, m) => [0x61 + b; m]
    | None => [c]
    end
  else [c].

Definition lower_unit (c : N) : jsstring :=
  if between 0x41 0x5A c then [c + 32]
  else if between 0xC0 0xDE c && negb (c =? 0xD7) then [c + 32]
  else [c].

Definition upper_unit (c : N) : jsstring :=
  if between 0x61 0x7A c then [c - 32]
  else if between 0xE0 0xFE c && negb (c =? 0xF7) then [c - 32]
  else if c =? 0xDF then [0x53; 0x53]
  else if c =? 0xFF then [0x178]
  else if c =? 0xB5 then [0x39C]
  else [c].

(** White space and line terminators, as [parseInt] skips them. *)
Definition is_space (c : N) : bool :=
  between 9 13 c || (c =? 32) || (c =? 0xA0) || (c =? 0x1680)
  || between 0x2000 0x200A c || (c =? 0x2028) || (c =? 0x2029)
  || (c =? 0x202F) || (c =? 0x205F) || (c =? 0x3000) || (c =? 0xFEFF).

Definition is_digit (c : N) : bool := between 0x30 0x39 c.

Fixpoint skip_spaces (s : jsstring) : jsstring :=
  match s with
  | c :: s' => if is_space c then skip_spaces s' else s
  | [] => []
  end.

(** The value of the longest prefix of digits, [acc] holding the digits
    read so far; [None] when there is no digit at all. *)
Fixpoint digits_value (acc : option Z) (s : jsstring) : option Z :=
  match s with
  | c :: s' =>
      if is_digit c
      then digits_value
             (Some (10 * default 0%Z acc + Z.of_N (c - 0x30))%Z) s'
      else acc
  | [] => acc
  end.

Definition parse_int (s : jsstring) : jsint :=
  match skip_spaces s with
  | 0x2D :: r => Z.opp <$> digits_value None r
  | 0x2B :: r => digits_value None r
  | r => digits_value None r
  end.

Definition number_to_string (n : jsint) : jsstring :=
  match n with
  | None => lit "NaN"
  | Some z => lit (NilZero.string_of_int (Z.to_int z))
  end.

End Latin1.

Definition latin1Runtime : JsRuntime := {|
  normalizeNFD s := flat_map Latin1.nfd_unit s;
  toLowerCase s := flat_map Latin1.lower_unit s;
  toUpperCase s := flat_map Latin1.upper_unit s;
  parseInt10 := Latin1.parse_int;
  numberToString := Latin1.number_to_string
|}.

(** ** The helpers of the page *)

Section Helpers.
Context `{RT : JsRuntime}.

(** The class of the first [replace]: the combining marks U+0300..U+036F. *)
Definition is_combining_mark (c : N) : bool := (0x300 <=? c) && (c <=? 0x36F).

(** The class kept by the second [replace]: a to z and 0 to 9. *)
Definition is_lower_alnum (c : N) : bool :=
  ((0x61 <=? c) && (c <=? 0x7A)) || ((0x30 <=? c) && (c <=? 0x39)).

(** [normalizeAnswer]: decompose, drop the combining marks, lower-case,
    drop what is not in [a-z0-9]. *)
Definition normalizeAnswer (value : jsstring) : jsstring :=
  List.filter is_lower_alnum
    (toLowerCase
       (List.filter (fun c => negb (is_combining_mark c))
          (normalizeNFD value))).

(** [titleize]. *)
Definition titleize_part (part : jsstring) : jsstring :=
  if (3 <? length part)%nat
  then toUpperCase (charAt0 part) ++ List.tl part
  else toUpperCase part.

Definition titleize (value : jsstring) : jsstring :=
  join [32] (List.map titleize_part (split_on 32 value)).

End Helpers.


(** ** [Math.random]

    [Math.random()] returns a double in [0, 1) and the page only uses it as
    [Math.floor(Math.random() * n)] with [n] a positive integer, an integer
    in [0, n).  The source of randomness is a list of draws, consumed from
    the head; the draw [r] gives [r mod n], so that every value below [n]
    is the outcome of some source.  An exhausted source gives 0. *)

Definition Rand (A : Type) : Type := list nat -> A * list nat.

Definition ret {A} (a : A) : Rand A := fun src => (a, src).

Definition bind {A B} (m : Rand A) (k : A -> Rand B) : Rand B :=
  fun src => let (a, src') := m src in k a src'.

Notation "x <~ m ;; k" := (bind m (fun x => k))
  (at level 100, m at next level, right associativity).

(** [Math.floor(Math.random() * n)]. *)
Definition randomBelow (n : nat) : Rand nat :=
  fun src =>
    match src with
    | [] => (0%nat, [])
    | r :: src' => ((r mod n)%nat, src')
    end.

(** [[result[i], result[j]] = [result[j], result[i]]]: both reads come
    first.  The indices of [shuffle] are always in range; outside it
    JavaScript would extend the array, which the model does not follow. *)
Definition swap {A} (i j : nat) (result : list A) : list A :=
  match result !! i, result !! j with
  | Some x, Some y => <[j:=x]> (<[i:=y]> result)
  | _, _ => result
  end.

(** The loop of [shuffle], from [i] down to 1. *)
Fixpoint shuffle_loop {A} (i : nat) (result : list A) : Rand (list A) :=
  match i with
  | O => ret result
  | S i' =>
      j <~ randomBelow (i + 1) ;;
      shuffle_loop i' (swap i j result)
  end.

(** [shuffle]: Fisher-Yates on a copy of the array. *)
Definition shuffle {A} (array : list A) : Rand (list A) :=
  shuffle_loop (length array - 1) array.

(** ** The data *)

(** [CountryDetail], an entry of the external data set.  The page guards
    against a missing entry, a missing [iso] and a missing [numeric], so
    they are optional here; [drive_direction] is whatever string the data
    holds, or absent. *)
Module Detail.
Record iso_codes := {
  numeric : option jsstring;
  alpha_3 : option jsstring
}.
Record t := {
  country : jsstring;
  capital : jsstring;
  continent : jsstring;
  iso : option iso_codes;
  famous_for : option jsstring;
  is_landlocked : bool;
  drive_direction : option jsstring
}.
End Detail.

Inductive DriveDirection := DriveLeft | DriveRight.

(** [Country], a record of the quiz. *)
Record Country := {
  id : jsstring;
  name : jsstring;
  capital : jsstring;
  continent : jsstring;
  continentCode : jsstring;
  isLandlocked : bool;
  driveDirection : DriveDirection;
  famousFor : option jsstring
}.

(** [GeoQuestion]. *)
Module Geo.
Record GeoQuestion := {
  prompt : jsstring;
  answer : jsstring;
  options : list jsstring
}.
End Geo.
Export Geo (GeoQuestion).

Definition TOTAL_LEVELS : nat := 100.

(** [CONTINENT_NAMES[code]], over the keys the object literal declares
    (the properties an object inherits from its prototype are left out). *)
Definition CONTINENT_NAMES (code : jsstring) : option jsstring :=
  if str_eqb code (lit "af") then Some (lit "Africa")
  else if str_eqb code (lit "as") then Some (lit "Asia")
  else if str_eqb code (lit "eu") then Some (lit "Europe")
  else if str_eqb code (lit "na") then Some (lit "North America")
  else if str_eqb code (lit "sa") then Some (lit "South America")
  else if str_eqb code (lit "oc") then Some (lit "Oceania")
  else if str_eqb code (lit "an") then Some (lit "Antarctica")
  else None.

(** [detail?.iso?.numeric] when it is truthy: present and not empty. *)
Definition isoNumeric (detail : option Detail.t) : option jsstring :=
  d ← detail;
  codes ← Detail.iso d;
  n ← Detail.numeric codes;
  if str_truthy n then Some n else None.

(** The text a [driveDirection] prints as in a template string. *)
Definition driveDirection_text (d : DriveDirection) : jsstring :=
  match d with DriveLeft => lit "left" | DriveRight => lit "right" end.

Section Page.
Context `{RT : JsRuntime}.

(** The callback of [detailList.map] in [buildCountries]: [None] is its
    [null], which [filter(Boolean)] then removes. *)
Definition buildCountry (detail : option Detail.t) : option Country :=
  match isoNumeric detail, detail with
  | Some n, Some d =>
      Some {|
        id := numberToString (parseInt10 n);
        name := titleize (Detail.country d);
        capital := titleize (Detail.capital d);
        continent := default (lit "Unknown") (CONTINENT_NAMES (Detail.continent d));
        continentCode := Detail.continent d;
        isLandlocked := Detail.is_landlocked d;
        driveDirection :=
          if bool_decide (Detail.drive_direction d = Some (lit "left"))
          then DriveLeft else DriveRight;
        famousFor := Detail.famous_for d
      |}
  | _, _ => None
  end.

(** The [detailByIso] map that [buildCountries] fills first, as the list of
    its [set] calls in order (a later call for a key replaces an earlier
    one).  Nothing reads the map: the value [buildCountries] returns is
    computed from [detailList] alone. *)
Definition detailByIso (detailList : list (option Detail.t))
  : list (jsstring * Detail.t) :=
  flat_map
    (fun detail =>
       match isoNumeric detail, detail with
       | Some n, Some d => [(n, d); (numberToString (parseInt10 n), d)]
       | _, _ => []
       end)
    detailList.

(** [buildCountries], on the list [countriesLib.getAllCountryDetails()]
    returns. *)
Definition buildCountries (detailList : list (option Detail.t)) : list Country :=
  omap buildCountry detailList.

(** [buildGeoQuestion]: both candidate questions are built (one shuffle
    each), then one is drawn. *)
Definition buildGeoQuestion (country : Country) : Rand GeoQuestion :=
  yesNo <~ shuffle [lit "Yes"; lit "No"] ;;
  leftRight <~ shuffle [lit "Left"; lit "Right"] ;;
  k <~ randomBelow 2 ;;
  ret (match k with
       | O =>
           {| Geo.prompt := lit "Is " ++ name country ++ lit " landlocked?";
              Geo.answer := if isLandlocked country then lit "Yes" else lit "No";
              Geo.options := yesNo |}
       | _ =>
           {| Geo.prompt :=
                lit "Which driving side is used in " ++ name country ++ lit "?";
              Geo.answer :=
                match driveDirection country with
                | DriveLeft => lit "Left"
                | DriveRight => lit "Right"
                end;
              Geo.options := leftRight |}
       end).

(** [buildPool]. *)
Definition buildPool (detailList : list (option Detail.t)) : Rand (list Country) :=
  shuffled <~ shuffle (buildCountries detailList) ;;
  ret (take TOTAL_LEVELS shuffled).

(** ** The component [Home] *)

Inductive Step := StepCountry | StepCapital | StepGeo.

(** The cells of the component: one field per [useState], then what the
    model adds to follow [useMemo] and [setTimeout].
    - [poolId] numbers the arrays [buildPool] has returned.  The objects of
      a pool are fresh and pairwise distinct, so the object
      [countries[levelIndex]] is identified by the pair of [poolId] and
      [levelIndex].
    - [geoDeps] is the [currentCountry] the memoized [geoQuestion] was
      computed for ([None] for [undefined]).
    - [timers] holds, for every pending [setTimeout], the value of
      [finished] in the closure of [handleAdvance] it will call. *)
Record Hooks := {
  countries : list Country;
  levelIndex : nat;
  step : Step;
  answer : jsstring;
  feedback : jsstring;
  attempts : nat;
  correctCount : nat;
  streak : nat;
  selectedOption : option jsstring;
  showHint : bool;
  poolId : nat;
  geoDeps : option (nat * nat);
  geoQuestion : option GeoQuestion;
  timers : list bool
}.

(** [setCountries] stores an array [buildPool] has just returned: its
    objects are new, and the pool gets the next [poolId]. *)
Definition setCountries (v : list Country) (h : Hooks) : Hooks :=
  {| countries := v; levelIndex := levelIndex h; step := step h;
     answer := answer h; feedback := feedback h; attempts := attempts h;
     correctCount := correctCount h; streak := streak h;
     selectedOption := selectedOption h; showHint := showHint h;
     poolId := S (poolId h); geoDeps := geoDeps h;
     geoQuestion := geoQuestion h; timers := timers h |}.

Definition setLevelIndex (f : nat -> nat) (h : Hooks) : Hooks :=
  {| countries := countries h; levelIndex := f (levelIndex h); step := step h;
     answer := answer h; feedback := feedback h; attempts := attempts h;
     correctCount := correctCount h; streak := streak h;
     selectedOption := selectedOption h; showHint := showHint h;
     poolId := poolId h; geoDeps := geoDeps h;
     geoQuestion := geoQuestion h; timers := timers h |}.

Definition setStep (v : Step) (h : Hooks) : Hooks :=
  {| countries := countries h; levelIndex := levelIndex h; step := v;
     answer := answer h; feedback := feedback h; attempts := attempts h;
     correctCount := correctCount h; streak := streak h;
     selectedOption := selectedOption h; showHint := showHint h;
     poolId := poolId h; geoDeps := geoDeps h;
     geoQuestion := geoQuestion h; timers := timers h |}.

Definition setAnswer (v : jsstring) (h : Hooks) : Hooks :=
  {| countries := countries h; levelIndex := levelIndex h; step := step h;
     answer := v; feedback := feedback h; attempts := attempts h;
     correctCount := correctCount h; streak := streak h;
     selectedOption := selectedOption h; showHint := showHint h;
     poolId := poolId h; geoDeps := geoDeps h;
     geoQuestion := geoQuestion h; timers := timers h |}.

Definition setFeedback (v : jsstring) (h : Hooks) : Hooks :=
  {| countries := countries h; levelIndex := levelIndex h; step := step h;
     answer := answer h; feedback := v; attempts := attempts h;
     correctCount := correctCount h; streak := streak h;
     selectedOption := selectedOption h; showHint := showHint h;
     poolId := poolId h; geoDeps := geoDeps h;
     geoQuestion := geoQuestion h; timers := timers h |}.

Definition setAttempts (f : nat -> nat) (h : Hooks) : Hooks :=
  {| countries := countries h; levelIndex := levelIndex h; step := step h;
     answer := answer h; feedback := feedback h; attempts := f (attempts h);
     correctCount := correctCount h; streak := streak h;
     selectedOption := selectedOption h; showHint := showHint h;
     poolId := poolId h; geoDeps := geoDeps h;
     geoQuestion := geoQuestion h; timers := timers h |}.

Definition setCorrectCount (f : nat -> nat) (h : Hooks) : Hooks :=
  {| countries := countries h; levelIndex := levelIndex h; step := step h;
     answer := answer h; feedback := feedback h; attempts := attempts h;
     correctCount := f (correctCount h); streak := streak h;
     selectedOption := selectedOption h; showHint := showHint h;
     poolId := poolId h; geoDeps := geoDeps h;
     geoQuestion := geoQuestion h; timers := timers h |}.

Definition setStreak (f : nat -> nat) (h : Hooks) : Hooks :=
  {| countries := countries h; levelIndex := levelIndex h; step := step h;
     answer := answer h; feedback := feedback h; attempts := attempts h;
     correctCount := correctCount h; streak := f (streak h);
     selectedOption := selectedOption h; showHint := showHint h;
     poolId := poolId h; geoDeps := geoDeps h;
     geoQuestion := geoQuestion h; timers := timers h |}.

Definition setSelectedOption (v : option jsstring) (h : Hooks) : Hooks :=
  {| countries := countries h; levelIndex := levelIndex h; step := step h;
     answer := answer h; feedback := feedback h; attempts := attempts h;
     correctCount := correctCount h; streak := streak h;
     selectedOption := v; showHint := showHint h;
     poolId := poolId h; geoDeps := geoDeps h;
     geoQuestion := geoQuestion h; timers := timers h |}.

Definition setShowHint (f : bool -> bool) (h : Hooks) : Hooks :=
  {| countries := countries h; levelIndex := levelIndex h; step := step h;
     answer := answer h; feedback := feedback h; attempts := attempts h;
     correctCount := correctCount h; streak := streak h;
     selectedOption := selectedOption h; showHint := f (showHint h);
     poolId := poolId h; geoDeps := geoDeps h;
     geoQuestion := geoQuestion h; timers := timers h |}.

(** The memo cell of [geoQuestion], rewritten when its dependency changed. *)
Definition setGeoMemo (deps : option (nat * nat)) (q : option GeoQuestion)
    (h : Hooks) : Hooks :=
  {| countries := countries h; levelIndex := levelIndex h; step := step h;
     answer := answer h; feedback := feedback h; attempts := attempts h;
     correctCount := correctCount h; streak := streak h;
     selectedOption := selectedOption h; showHint := showHint h;
     poolId := poolId h; geoDeps := deps;
     geoQuestion := q; timers := timers h |}.

Definition setTimers (v : list bool) (h : Hooks) : Hooks :=
  {| countries := countries h; levelIndex := levelIndex h; step := step h;
     answer := answer h; feedback := feedback h; attempts := attempts h;
     correctCount := correctCount h; streak := streak h;
     selectedOption := selectedOption h; showHint := showHint h;
     poolId := poolId h; geoDeps := geoDeps h;
     geoQuestion := geoQuestion h; timers := v |}.

(** What a render derives from the cells. *)
Definition totalLevels (h : Hooks) : nat :=
  Nat.min TOTAL_LEVELS (length (countries h)).

Definition currentCountry (h : Hooks) : option Country :=
  countries h !! levelIndex h.

Definition finished (h : Hooks) : bool :=
  (0 <? totalLevels h)%nat && (totalLevels h <=? levelIndex h)%nat.

(** The identity of the object [currentCountry]. *)
Definition currentRef (h : Hooks) : option (nat * nat) :=
  if (levelIndex h <? length (countries h))%nat
  then Some (poolId h, levelIndex h) else None.

(** [handleCorrect]. *)
Definition handleCorrect (nextStep : option Step) (h : Hooks) : Hooks :=
  let h := setCorrectCount S h in
  let h := setStreak S h in
  let h :=
    setFeedback
      (match nextStep with
       | Some StepCountry =>
           lit "Level complete! Get ready for the next spotlight."
       | _ => lit "On point! Keep it going."
       end) h in
  match nextStep with
  | Some s => setAnswer [] (setStep s h)
  | None => h
  end.

(** [handleAdvance], with the [finished] of the render that made it. *)
Definition handleAdvance (finished_then : bool) (h : Hooks) : Hooks :=
  if finished_then then h
  else
    setFeedback []
      (setSelectedOption None
         (setAnswer [] (setStep StepCountry (setLevelIndex S h)))).

(** [handleSubmit]: the form reads the [answer] cell. *)
Definition handleSubmit (h : Hooks) : Hooks :=
  match currentCountry h with
  | None => h
  | Some c =>
      let cleaned := normalizeAnswer (answer h) in
      if negb (str_truthy cleaned)
      then setFeedback (lit "Type your answer to keep moving.") h
      else
        let h1 := setAttempts S h in
        match step h with
        | StepCountry =>
            if str_eqb (normalizeAnswer (name c)) cleaned
            then handleCorrect (Some StepCapital) h1
            else
              setStreak (fun _ => O)
                (setFeedback (lit "Not quite. Use the hints and try again.") h1)
        | StepCapital =>
            if str_eqb (normalizeAnswer (capital c)) cleaned
            then handleCorrect (Some StepGeo) h1
            else
              setStreak (fun _ => O)
                (setFeedback (lit "Close! Think of the capital city.") h1)
        | StepGeo => h1
        end
  end.

(** [handleGeoChoice]. *)
Definition handleGeoChoice (option : jsstring) (h : Hooks) : Hooks :=
  match geoQuestion h with
  | None => h
  | Some q =>
      let h1 := setAttempts S (setSelectedOption (Some option) h) in
      if str_eqb (normalizeAnswer option) (normalizeAnswer (Geo.answer q))
      then
        let h2 := handleCorrect (Some StepCountry) h1 in
        setTimers (timers h ++ [finished h]) h2
      else
        setStreak (fun _ => O)
          (setFeedback (lit "Geography check missed. Try another option.") h1)
  end.

(** The [onClick] of the restart button. *)
Definition restart (detailList : list (option Detail.t)) (h : Hooks) : Rand Hooks :=
  built <~ buildPool detailList ;;
  ret (setSelectedOption None
         (setFeedback []
            (setStreak (fun _ => O)
               (setCorrectCount (fun _ => O)
                  (setAttempts (fun _ => O)
                     (setAnswer []
                        (setStep StepCountry
                           (setLevelIndex (fun _ => O)
                              (setCountries built h))))))))).

(** The [useMemo] of [geoQuestion] at a render: kept while [currentCountry]
    is the same object, computed anew otherwise. *)
Definition computeGeoQuestion (h : Hooks) : Rand Hooks :=
  match currentCountry h with
  | Some c =>
      q <~ buildGeoQuestion c ;;
      ret (setGeoMemo (currentRef h) (Some q) h)
  | None => ret (setGeoMemo (currentRef h) None h)
  end.

Definition render (h : Hooks) : Rand Hooks :=
  if bool_decide (currentRef h = geoDeps h) then ret h
  else computeGeoQuestion h.

(** The first render: [useState(buildPool)] and the initial values. *)
Definition mount (detailList : list (option Detail.t)) : Rand Hooks :=
  pool <~ buildPool detailList ;;
  computeGeoQuestion
    {| countries := pool; levelIndex := 0; step := StepCountry;
       answer := []; feedback := []; attempts := 0; correctCount := 0;
       streak := 0; selectedOption := None; showHint := false;
       poolId := 0; geoDeps := None; geoQuestion := None; timers := [] |}.

(** What can happen to a mounted component. *)
Inductive Event :=
| ChangeAnswer (value : jsstring)
| Submit
| ChooseOption (option : jsstring)
| TimerFires
| Restart
| ToggleHint.

Definition handle (detailList : list (option Detail.t)) (ev : Event)
    (h : Hooks) : Rand Hooks :=
  match ev with
  | ChangeAnswer value => ret (setAnswer value h)
  | Submit => ret (handleSubmit h)
  | ChooseOption option => ret (handleGeoChoice option h)
  | TimerFires =>
      match timers h with
      | [] => ret h
      | f :: rest => ret (handleAdvance f (setTimers rest h))
      end
  | Restart => restart detailList h
  | ToggleHint => ret (setShowHint negb h)
  end.

(** An event, then the render it causes. *)
Definition dispatch (detailList : list (option Detail.t)) (ev : Event)
    (h : Hooks) : Rand Hooks :=
  h' <~ handle detailList ev h ;;
  render h'.

(** [hintLine], a function of its three dependencies. *)
Definition hintLine (current : option Country) (s : Step)
    (q : option GeoQuestion) : jsstring :=
  match current with
  | None => lit "Loading hint..."
  | Some c =>
      match s, q with
      | StepCountry, _ =>
          lit "Country starts with " ++ toUpperCase (charAt0 (name c))
          ++ lit " and sits in " ++ continent c ++ lit "."
      | StepCapital, _ =>
          lit "Capital starts with " ++ toUpperCase (charAt0 (capital c))
          ++ lit " for " ++ name c ++ lit "."
      | StepGeo, Some g =>
          if includes (Geo.prompt g) (lit "landlocked")
          then if isLandlocked c then lit "No coastline."
               else lit "Touches the sea."
          else if includes (Geo.prompt g) (lit "driving side")
          then lit "They drive on the "
               ++ driveDirection_text (driveDirection c) ++ lit " side."
          else lit "Stay sharp."
      | StepGeo, None => lit "Stay sharp."
      end
  end.

End Page.

(** ** The accuracy display

    [attempts ? Math.round((correctCount / attempts) * 100) : 100], in the
    arithmetic of JavaScript numbers. *)

(** A counter as a JavaScript number (exact below 2^53). *)
Definition number (n : nat) : float :=
  PrimFloat.of_uint63 (Uint63.of_Z (Z.of_nat n)).

(** [Math.round]: the integer closest to [x], the upper one of two equally
    close ones, that is the floor of [x + 1/2] computed exactly.  A finite
    double is [v * 2^e] for integers [v] and [e]; for a negative [e] the
    floor of [(2 * v + 2^(-e)) / 2^(1 - e)] is a shift to the right.
    [None] for [NaN] and the infinities. *)
Definition Math_round (x : float) : option Z :=
  match Prim2SF x with
  | S754_zero _ => Some 0%Z
  | S754_finite s m e =>
      let v := (if s then Z.neg m else Z.pos m) in
      Some (if (0 <=? e)%Z then Z.shiftl v e
            else Z.shiftr (2 * v + Z.shiftl 1 (- e)) (1 - e))
  | S754_infinity _ | S754_nan => None
  end.

Definition accuracy (correctCount attempts : nat) : option Z :=
  match attempts with
  | O => Some 100%Z
  | S _ =>
      Math_round
        (PrimFloat.mul (PrimFloat.div (number correctCount) (number attempts))
           (number 100))
  end.

(** ** Predicates of the specification *)

(** The input is empty or made of white space only. *)
Definition is_blank (s : jsstring) : bool := forallb Latin1.is_space s.

(** The counters of a session are consistent. *)
Definition counters_ok (h : Hooks) : Prop := (correctCount h <= attempts h)%nat.

(** What an event can do to the two counters: nothing, count an attempt
    (correct or not), or reset both. *)
Definition counted (h h' : Hooks) : Prop :=
  (attempts h' = attempts h /\ correctCount h' = correctCount h)
  \/ (attempts h' = S (attempts h)
      /\ (correctCount h' = correctCount h
          \/ correctCount h' = S (correctCount h)))
  \/ (attempts h' = 0%nat /\ correctCount h' = 0%nat).

(** The memoized [geoQuestion] is the one of the current render. *)
Definition rendered (h : Hooks) : Prop := geoDeps h = currentRef h.

(** The quotient [p / q] rounded to the nearest integer, a tie going up:
    the specification's [round(100 * correctCount / attempts)] is
    [round_half_up (100 * correctCount) attempts]. *)
Definition round_half_up (p q : Z) : Z := ((2 * p + q) / (2 * q))%Z.

(** [p / q] lies halfway between two integers. *)
Definition is_tie (p q : Z) : bool := ((2 * p) mod (2 * q) =? q)%Z.

(** The real number that a record of [shr] (a mantissa with its round and
    sticky bits) stands for: the mantissa itself, or a point of the unit
    interval above it, in the half that the two bits tell. *)
Definition located (mrs : shr_record) (y : R) : Prop :=
  match loc_of_shr_record mrs with
  | loc_Exact => y = IZR (shr_m mrs)
  | loc_Inexact Lt => (IZR (shr_m mrs) < y < IZR (shr_m mrs) + / 2)%R
  | loc_Inexact Eq => y = (IZR (shr_m mrs) + / 2)%R
  | loc_Inexact Gt => (IZR (shr_m mrs) + / 2 < y < IZR (shr_m mrs) + 1)%R
  end.

(** ** Sample data *)

Definition SaoPaulo : jsstring := lit "S" ++ [0xE3] ++ lit "o Paulo".

Definition sampleDetail (country capital continent : string)
    (numeric : option string) (landlocked : bool) (drive : option string)
  : option Detail.t :=
  Some {| Detail.country := lit country;
          Detail.capital := lit capital;
          Detail.continent := lit continent;
          Detail.iso :=
            Some {| Detail.numeric := lit <$> numeric;
                    Detail.alpha_3 := None |};
          Detail.famous_for := None;
          Detail.is_landlocked := landlocked;
          Detail.drive_direction := lit <$> drive |}.

Definition franceDetail : option Detail.t :=
  sampleDetail "france" "paris" "eu" (Some "250"%string) false (Some "right"%string).

Definition singaporeDetail : option Detail.t :=
  sampleDetail "singapore" "singapore" "as" (Some "702"%string) false
    (Some "left"%string).

(** Chad, without a [drive_direction]. *)
Definition chadEntry : Detail.t :=
  {| Detail.country := lit "chad";
     Detail.capital := lit "n'djamena";
     Detail.continent := lit "af";
     Detail.iso :=
       Some {| Detail.numeric := Some (lit "148"); Detail.alpha_3 := None |};
     Detail.famous_for := None;
     Detail.is_landlocked := true;
     Detail.drive_direction := None |}.

Definition chadDetail : option Detail.t := Some chadEntry.

(** An entry without an ISO numeric code. *)
Definition strayDetail : option Detail.t :=
  sampleDetail "atlantis" "poseidonis" "eu" None false None.

(** A second entry under Chad's code, written with a leading zero. *)
Definition tchadDetail : option Detail.t :=
  sampleDetail "tchad" "n'djamena" "af" (Some "0148"%string) true None.

Definition sampleDetails : list (option Detail.t) :=
  [franceDetail; singaporeDetail; strayDetail; chadDetail].

Definition repeatedDetails : list (option Detail.t) :=
  [chadDetail; tchadDetail].

Definition france : Country :=
  {| id := lit "250"; name := lit "France"; capital := lit "Paris";
     continent := lit "Europe"; continentCode := lit "eu";
     isLandlocked := false; driveDirection := DriveRight; famousFor := None |}.

Definition singapore : Country :=
  {| id := lit "702"; name := lit "Singapore"; capital := lit "Singapore";
     continent := lit "Asia"; continentCode := lit "as";
     isLandlocked := false; driveDirection := DriveLeft; famousFor := None |}.

Definition franceLandlocked : GeoQuestion :=
  {| Geo.prompt := lit "Is France landlocked?";
     Geo.answer := lit "No";
     Geo.options := [lit "Yes"; lit "No"] |}.

Definition finland : Country :=
  {| id := lit "246"; name := lit "Finland"; capital := lit "Helsinki";
     continent := lit "Europe"; continentCode := lit "eu";
     isLandlocked := false; driveDirection := DriveRight; famousFor := None |}.

(** A session on the pool [pool], at its first level. *)
Definition sessionAt (pool : list Country) (s : Step) (input : jsstring)
    (q : option GeoQuestion) : Hooks :=
  {| countries := pool; levelIndex := 0; step := s; answer := input;
     feedback := []; attempts := 0; correctCount := 0; streak := 0;
     selectedOption := None; showHint := false; poolId := 0;
     geoDeps := Some (0%nat, 0%nat); geoQuestion := q; timers := [] |}.

(** ** The rest of the page *)

(** [progressPercent], a function of its two dependencies. *)
Definition progressPercent (levelIndex totalLevels : nat) : option Z :=
  match totalLevels with
  | O => Some 0%Z
  | S _ =>
      Math_round
        (PrimFloat.mul
           (PrimFloat.div (number (Nat.min levelIndex totalLevels))
              (number totalLevels))
           (number 100))
  end.

(** The progress bar is within 0 and 100, empty at the first level, full
    exactly when every level is passed, and does not go back from one
    level to the next. *)
Definition progress_ok (levelIndex totalLevels : nat) : bool :=
  match progressPercent levelIndex totalLevels,
        progressPercent (S levelIndex) totalLevels with
  | Some z, Some z' =>
      (0 <=? z)%Z && (z <=? 100)%Z && (z <=? z')%Z
      && (if (levelIndex =? 0)%nat then (z =? 0)%Z else true)
      && Bool.eqb (z =? 100)%Z (totalLevels <=? levelIndex)%nat
  | _, _ => false
  end.

Definition progress_table (bound : nat) : bool :=
  forallb (fun t => forallb (fun i => progress_ok i t) (seq 0 (S (S t))))
    (seq 1 bound).

(** The memoized question is the one of the current country: none without
    a current country, and otherwise a question [buildGeoQuestion] returns
    for it. *)
Definition question_fits (h : Hooks) : Prop :=
  match currentCountry h with
  | None => geoQuestion h = None
  | Some c => exists src, geoQuestion h = Some (fst (buildGeoQuestion c src))
  end.

Section Sessions.
Context `{RT : JsRuntime}.

(** Events one after the other, each followed by its render. *)
Fixpoint run (detailList : list (option Detail.t)) (evs : list Event)
    (h : Hooks) : Rand Hooks :=
  match evs with
  | [] => ret h
  | ev :: evs' =>
      h' <~ dispatch detailList ev h ;;
      run detailList evs' h'
  end.

(** The states of a mounted component: the first render, and what events
    lead to from there, whatever the random source gives. *)
Inductive reachable (detailList : list (option Detail.t)) : Hooks -> Prop :=
| reachable_mount (src : list nat) :
    reachable detailList (fst (mount detailList src))
| reachable_dispatch (ev : Event) (h : Hooks) (src : list nat) :
    reachable detailList h ->
    reachable detailList (fst (dispatch detailList ev h src)).

End Sessions.

(** A second country of the sample data, for sessions of two levels. *)
Definition chad : Country :=
  {| id := lit "148"; name := lit "Chad"; capital := lit "N'djamena";
     continent := lit "Africa"; continentCode := lit "af";
     isLandlocked := true; driveDirection := DriveRight; famousFor := None |}.

(** * Properties *)

(** ** Strings *)

Lemma str_eqb_eq (a b : jsstring) : str_eqb a b = true <-> a = b.
Proof. unfold str_eqb. rewrite bool_decide_eq_true. reflexivity. Qed.

Lemma str_eqb_neq (a b : jsstring) : str_eqb a b = false <-> a <> b.
Proof. unfold str_eqb. rewrite bool_decide_eq_false. reflexivity. Qed.

Lemma str_truthy_false (s : jsstring) : str_truthy s = false <-> s = [].
Proof. destruct s; simpl; split; congruence. Qed.

Lemma starts_with_app (t rest : jsstring) : starts_with t (t ++ rest) = true.
Proof.
  induction t as [|a t IH]; simpl; [reflexivity|].
  rewrite N.eqb_refl. exact IH.
Qed.

Lemma includes_app (before t rest : jsstring) :
  includes (before ++ t ++ rest) t = true.
Proof.
  induction before as [|b before IH]; simpl.
  - pose proof (starts_with_app t rest) as Hs.
    destruct (t ++ rest); simpl; rewrite Hs; reflexivity.
  - rewrite IH. apply orb_true_r.
Qed.

(** ** [normalizeAnswer] *)

Section Normalize.
Context `{RT : JsRuntime}.

Lemma normalizeAnswer_alnum (s : jsstring) :
  Forall (fun c => is_lower_alnum c = true) (normalizeAnswer s).
Proof.
  unfold normalizeAnswer. apply List.Forall_forall.
  intros c Hc. apply List.filter_In in Hc. apply Hc.
Qed.

Lemma handleGeoChoice_judged (h : Hooks) (q : GeoQuestion) (opt : jsstring) :
  geoQuestion h = Some q ->
  correctCount (handleGeoChoice opt h) = S (correctCount h)
  <-> normalizeAnswer opt = normalizeAnswer (Geo.answer q).
Proof.
  intros Hq. unfold handleGeoChoice. rewrite Hq.
  destruct (str_eqb _ _) eqn:E.
  - apply str_eqb_eq in E. simpl. tauto.
  - apply str_eqb_neq in E. simpl. split; [lia | tauto].
Qed.

Lemma handleSubmit_judged (h : Hooks) (c : Country) :
  currentCountry h = Some c ->
  step h = StepCountry ->
  correctCount (handleSubmit h) = S (correctCount h)
  <-> normalizeAnswer (answer h) <> []
      /\ normalizeAnswer (name c) = normalizeAnswer (answer h).
Proof.
  intros Hc Hs. unfold handleSubmit. rewrite Hc, Hs.
  destruct (str_truthy _) eqn:Ht; simpl.
  - assert (normalizeAnswer (answer h) <> []) as Hne.
    { intros Hn. rewrite Hn in Ht. discriminate. }
    destruct (str_eqb _ _) eqn:E.
    + apply str_eqb_eq in E. simpl. tauto.
    + apply str_eqb_neq in E. simpl. split; [lia | tauto].
  - apply str_truthy_false in Ht. split; [lia | tauto].
Qed.

End Normalize.

(** C2. [normalizeAnswer] returns characters of [a-z0-9] only, whatever the
    engine's [normalize], [toLowerCase] do; the spellings of Sao Paulo with
    and without the tilde, the capital and the space all normalize to the
    literal saopaulo (on the Latin-1 runtime); and the page judges two
    answers equal exactly when their normalized forms are identical, both
    in the comparison itself and in what the two handlers count as
    correct. *)
Theorem normalizeAnswer_canonical :
  (forall (RT : JsRuntime) (s : jsstring),
      Forall (fun c => is_lower_alnum c = true) (normalizeAnswer s))
  /\ (@normalizeAnswer latin1Runtime SaoPaulo = lit "saopaulo"
      /\ @normalizeAnswer latin1Runtime (lit "sao paulo") = lit "saopaulo"
      /\ @normalizeAnswer latin1Runtime (lit "saopaulo") = lit "saopaulo"
      /\ @normalizeAnswer latin1Runtime (lit "Ivory-Coast")
         = @normalizeAnswer latin1Runtime (lit "ivorycoast"))
  /\ (forall (RT : JsRuntime) (a b : jsstring),
      str_eqb (normalizeAnswer a) (normalizeAnswer b) = true
      <-> normalizeAnswer a = normalizeAnswer b)
  /\ (forall (RT : JsRuntime) (h : Hooks) (q : GeoQuestion) (opt : jsstring),
      geoQuestion h = Some q ->
      correctCount (handleGeoChoice opt h) = S (correctCount h)
      <-> normalizeAnswer opt = normalizeAnswer (Geo.answer q))
  /\ (forall (RT : JsRuntime) (h : Hooks) (c : Country),
      currentCountry h = Some c ->
      step h = StepCountry ->
      correctCount (handleSubmit h) = S (correctCount h)
      <-> normalizeAnswer (answer h) <> []
          /\ normalizeAnswer (name c) = normalizeAnswer (answer h)).
Proof.
  split; [intros RT s; apply normalizeAnswer_alnum|].
  split; [repeat split; vm_compute; reflexivity|].
  split; [intros RT a b; apply str_eqb_eq|].
  split; [intros RT h q opt; apply handleGeoChoice_judged|].
  intros RT h c; apply handleSubmit_judged.
Qed.

(** The two handlers judge an answer on the Latin-1 runtime: the option
    No answers the question on France, and FRANCE names France. *)
Lemma normalizeAnswer_canonical_witness :
  (correctCount
     (@handleGeoChoice latin1Runtime (lit "no")
        (sessionAt [france] StepGeo [] (Some franceLandlocked))) = 1%nat
   <-> @normalizeAnswer latin1Runtime (lit "no")
       = @normalizeAnswer latin1Runtime (lit "No"))
  /\ (correctCount
        (@handleSubmit latin1Runtime
           (sessionAt [france] StepCountry (lit "FRANCE") None)) = 1%nat
      <-> @normalizeAnswer latin1Runtime (lit "FRANCE") <> []
          /\ @normalizeAnswer latin1Runtime (lit "France")
             = @normalizeAnswer latin1Runtime (lit "FRANCE")).
Proof.
  destruct normalizeAnswer_canonical as (_ & _ & _ & Hgeo & Htext).
  split.
  - apply (Hgeo latin1Runtime
             (sessionAt [france] StepGeo [] (Some franceLandlocked))
             franceLandlocked (lit "no")).
    reflexivity.
  - apply (Htext latin1Runtime
             (sessionAt [france] StepCountry (lit "FRANCE") None) france);
      reflexivity.
Defined.

(** ** [handleSubmit] *)

(** C1. In the Country step, with a current country and an input whose
    normalized form is not empty: when the normalized input is the
    normalized country name, [handleSubmit] moves to the Capital step, adds
    one to [correctCount] and to [streak] and clears the input; otherwise it
    stays in the Country step, adds one to [attempts], leaves [correctCount]
    and sets [streak] to 0. *)
Theorem handleSubmit_country `{RT : JsRuntime} (h : Hooks) (c : Country) :
  step h = StepCountry ->
  currentCountry h = Some c ->
  normalizeAnswer (answer h) <> [] ->
  (normalizeAnswer (answer h) = normalizeAnswer (name c) ->
   step (handleSubmit h) = StepCapital
   /\ correctCount (handleSubmit h) = S (correctCount h)
   /\ streak (handleSubmit h) = S (streak h)
   /\ answer (handleSubmit h) = [])
  /\ (normalizeAnswer (answer h) <> normalizeAnswer (name c) ->
      step (handleSubmit h) = StepCountry
      /\ attempts (handleSubmit h) = S (attempts h)
      /\ correctCount (handleSubmit h) = correctCount h
      /\ streak (handleSubmit h) = 0%nat).
Proof.
  intros Hs Hc Hne. unfold handleSubmit. rewrite Hc, Hs.
  destruct (normalizeAnswer (answer h)) as [|u cleaned] eqn:Hin;
    [congruence|]. simpl negb. cbv iota.
  destruct (str_eqb (normalizeAnswer (name c)) (u :: cleaned)) eqn:E.
  - apply str_eqb_eq in E. split; [|congruence].
    intros _. simpl. auto.
  - apply str_eqb_neq in E. split; [congruence|].
    intros _. simpl. auto.
Qed.

(** The answer france, typed in capitals, for France, and the answer
    spain. *)
Lemma handleSubmit_country_witness :
  (step (@handleSubmit latin1Runtime
           (sessionAt [france] StepCountry (lit "FRANCE") None)) = StepCapital
   /\ correctCount (@handleSubmit latin1Runtime
           (sessionAt [france] StepCountry (lit "FRANCE") None)) = 1%nat
   /\ streak (@handleSubmit latin1Runtime
           (sessionAt [france] StepCountry (lit "FRANCE") None)) = 1%nat
   /\ answer (@handleSubmit latin1Runtime
           (sessionAt [france] StepCountry (lit "FRANCE") None)) = [])
  /\ (step (@handleSubmit latin1Runtime
           (sessionAt [france] StepCountry (lit "spain") None)) = StepCountry
      /\ attempts (@handleSubmit latin1Runtime
           (sessionAt [france] StepCountry (lit "spain") None)) = 1%nat
      /\ correctCount (@handleSubmit latin1Runtime
           (sessionAt [france] StepCountry (lit "spain") None)) = 0%nat
      /\ streak (@handleSubmit latin1Runtime
           (sessionAt [france] StepCountry (lit "spain") None)) = 0%nat).
Proof.
  split.
  - apply (@handleSubmit_country latin1Runtime
             (sessionAt [france] StepCountry (lit "FRANCE") None) france).
    + reflexivity.
    + reflexivity.
    + vm_compute. discriminate.
    + vm_compute. reflexivity.
  - apply (@handleSubmit_country latin1Runtime
             (sessionAt [france] StepCountry (lit "spain") None) france).
    + reflexivity.
    + reflexivity.
    + vm_compute. discriminate.
    + vm_compute. discriminate.
Defined.

Section Submit.
Context `{RT : JsRuntime}.

Lemma handleSubmit_rejects (h : Hooks) (c : Country) :
  currentCountry h = Some c ->
  normalizeAnswer (answer h) = [] ->
  handleSubmit h = setFeedback (lit "Type your answer to keep moving.") h.
Proof.
  intros Hc Hn. unfold handleSubmit. rewrite Hc, Hn. reflexivity.
Qed.

Lemma handleSubmit_counts (h : Hooks) (c : Country) :
  currentCountry h = Some c ->
  normalizeAnswer (answer h) <> [] ->
  attempts (handleSubmit h) = S (attempts h).
Proof.
  intros Hc Hn. unfold handleSubmit. rewrite Hc.
  destruct (normalizeAnswer (answer h)) as [|u cleaned]; [congruence|].
  simpl negb. cbv iota.
  destruct (step h); repeat (destruct (str_eqb _ _)); reflexivity.
Qed.

End Submit.

(** White space survives neither filter of [normalizeAnswer]. *)
Lemma between_false (lo hi c : N) :
  c < lo \/ hi < c -> Latin1.between lo hi c = false.
Proof.
  intros H. unfold Latin1.between.
  destruct (N.leb_spec lo c), (N.leb_spec c hi); simpl; try reflexivity; lia.
Qed.

Lemma is_space_cases (c : N) :
  Latin1.is_space c = true ->
  c <= 32 \/ c = 0xA0 \/ 0x1680 <= c.
Proof.
  unfold Latin1.is_space, Latin1.between.
  rewrite !orb_true_iff, !andb_true_iff, !N.leb_le, !N.eqb_eq. lia.
Qed.

Lemma space_normalizes_empty (c : N) :
  Latin1.is_space c = true ->
  Latin1.nfd_unit c = [c]
  /\ is_combining_mark c = false
  /\ Latin1.lower_unit c = [c]
  /\ is_lower_alnum c = false.
Proof.
  intros Hs. pose proof (is_space_cases c Hs) as Hc.
  repeat split.
  - unfold Latin1.nfd_unit. rewrite !between_false by lia. reflexivity.
  - unfold is_combining_mark.
    destruct (N.leb_spec 0x300 c), (N.leb_spec c 0x36F); simpl;
      try reflexivity; lia.
  - unfold Latin1.lower_unit. rewrite (between_false 0x41) by lia.
    rewrite (between_false 0xC0) by lia. reflexivity.
  - unfold is_lower_alnum.
    destruct (N.leb_spec 0x61 c), (N.leb_spec c 0x7A),
      (N.leb_spec 0x30 c), (N.leb_spec c 0x39); simpl; try reflexivity; lia.
Qed.

Lemma blank_normalizes_empty (s : jsstring) :
  is_blank s = true -> @normalizeAnswer latin1Runtime s = [].
Proof.
  unfold normalizeAnswer, is_blank. simpl.
  induction s as [|c s IH]; intros Hb; [reflexivity|].
  simpl in Hb. apply andb_true_iff in Hb as [Hc Hs].
  destruct (space_normalizes_empty c Hc) as (Hn & Hm & Hl & Ha).
  simpl. rewrite Hn. simpl. rewrite Hm. simpl. rewrite Hl. simpl.
  rewrite Ha. apply IH, Hs.
Qed.

(** C3, as the page has it.  With a current country, [handleSubmit]
    rejects exactly the inputs whose normalized form is empty: it then
    sets the feedback and changes nothing else, so no attempt is counted;
    every other input counts as an attempt.  The empty and the
    white-space-only inputs are among the rejected ones (on the Latin-1
    runtime), and so is any input without a letter or digit. *)
Theorem handleSubmit_rejects_unanswerable :
  (forall (RT : JsRuntime) (h : Hooks) (c : Country),
      currentCountry h = Some c ->
      normalizeAnswer (answer h) = [] ->
      handleSubmit h = setFeedback (lit "Type your answer to keep moving.") h
      /\ attempts (handleSubmit h) = attempts h)
  /\ (forall (RT : JsRuntime) (h : Hooks) (c : Country),
      currentCountry h = Some c ->
      normalizeAnswer (answer h) <> [] ->
      attempts (handleSubmit h) = S (attempts h))
  /\ (forall s : jsstring,
      is_blank s = true -> @normalizeAnswer latin1Runtime s = []).
Proof.
  split; [|split].
  - intros RT h c Hc Hn. rewrite (handleSubmit_rejects h c Hc Hn).
    split; reflexivity.
  - intros RT h c. apply handleSubmit_counts.
  - apply blank_normalizes_empty.
Qed.

(** Three spaces are rejected, and the answer paris counts as an attempt
    even though it is wrong for the country step. *)
Lemma handleSubmit_rejects_unanswerable_witness :
  (@handleSubmit latin1Runtime
     (sessionAt [france] StepCountry (lit "   ") None)
   = setFeedback (lit "Type your answer to keep moving.")
       (sessionAt [france] StepCountry (lit "   ") None)
   /\ attempts (@handleSubmit latin1Runtime
                  (sessionAt [france] StepCountry (lit "   ") None))
      = 0%nat)
  /\ attempts (@handleSubmit latin1Runtime
                 (sessionAt [france] StepCountry (lit "paris") None))
     = 1%nat
  /\ @normalizeAnswer latin1Runtime (lit "   ") = [].
Proof.
  destruct handleSubmit_rejects_unanswerable as (Hrej & Hcount & Hblank).
  split; [|split].
  - apply (Hrej latin1Runtime
             (sessionAt [france] StepCountry (lit "   ") None) france).
    + reflexivity.
    + vm_compute. reflexivity.
  - apply (Hcount latin1Runtime
             (sessionAt [france] StepCountry (lit "paris") None) france).
    + reflexivity.
    + vm_compute. discriminate.
  - apply (Hblank (lit "   ")). vm_compute. reflexivity.
Defined.

(** C3, as the specification has it, fails: the input of a question mark
    and an exclamation mark is neither empty nor white space, and it is
    rejected without counting an attempt. *)
Lemma punctuation_is_rejected :
  is_blank (lit "?!") = false
  /\ @handleSubmit latin1Runtime
       (sessionAt [france] StepCountry (lit "?!") None)
     = setFeedback (lit "Type your answer to keep moving.")
         (sessionAt [france] StepCountry (lit "?!") None)
  /\ attempts (@handleSubmit latin1Runtime
                 (sessionAt [france] StepCountry (lit "?!") None))
     = attempts (sessionAt [france] StepCountry (lit "?!") None).
Proof. repeat split; vm_compute; reflexivity. Qed.

(** ** [shuffle] and [buildPool] *)

Lemma insert_head_swap {A} (l : list A) (j : nat) (a y : A) :
  l !! j = Some y -> y :: <[j:=a]> l ≡ₚ a :: l.
Proof.
  revert j. induction l as [|b l IH]; intros j Hj; [discriminate|].
  destruct j as [|j]; simpl in *.
  - injection Hj as ->. apply perm_swap.
  - rewrite (perm_swap b y), (IH j Hj). apply perm_swap.
Qed.

Lemma swap_Permutation {A} (i j : nat) (l : list A) : swap i j l ≡ₚ l.
Proof.
  unfold swap.
  destruct (l !! i) as [x|] eqn:Hi; [|reflexivity].
  destruct (l !! j) as [y|] eqn:Hj; [|reflexivity].
  revert i j Hi Hj. induction l as [|a l IH]; intros i j Hi Hj; [discriminate|].
  destruct i as [|i], j as [|j]; simpl in *.
  - injection Hi as ->. reflexivity.
  - injection Hi as ->. apply insert_head_swap, Hj.
  - injection Hj as ->. apply insert_head_swap, Hi.
  - f_equiv. apply IH; assumption.
Qed.

Lemma shuffle_loop_Permutation {A} (i : nat) (l : list A) (src : list nat) :
  fst (shuffle_loop i l src) ≡ₚ l.
Proof.
  revert l src. induction i as [|i IH]; intros l src; [reflexivity|].
  simpl. unfold bind. destruct (randomBelow _ src) as [j src'].
  rewrite IH. apply swap_Permutation.
Qed.

Lemma shuffle_Permutation {A} (l : list A) (src : list nat) :
  fst (shuffle l src) ≡ₚ l.
Proof. apply shuffle_loop_Permutation. Qed.

Section Pool.
Context `{RT : JsRuntime}.

Lemma buildCountry_Some (detail : option Detail.t) (r : Country) :
  buildCountry detail = Some r ->
  exists n, isoNumeric detail = Some n /\ id r = numberToString (parseInt10 n).
Proof.
  unfold buildCountry. destruct (isoNumeric detail) as [n|]; [|discriminate].
  destruct detail as [d|]; [|discriminate].
  intros [= <-]. exists n. split; reflexivity.
Qed.

Lemma buildCountry_None (detail : option Detail.t) :
  buildCountry detail = None <-> isoNumeric detail = None.
Proof.
  unfold buildCountry. destruct detail as [d|]; [|split; reflexivity].
  destruct (isoNumeric (Some d)); split; congruence.
Qed.

Lemma buildCountries_ids (detailList : list (option Detail.t)) :
  id <$> buildCountries detailList
  = (fun n => numberToString (parseInt10 n)) <$> omap isoNumeric detailList.
Proof.
  unfold buildCountries.
  induction detailList as [|detail l IH]; [reflexivity|].
  simpl. destruct (buildCountry detail) as [r|] eqn:Hr.
  - destruct (buildCountry_Some _ _ Hr) as (n & Hn & Hid).
    rewrite Hn, !fmap_cons, Hid. f_equal. exact IH.
  - apply buildCountry_None in Hr. rewrite Hr. exact IH.
Qed.

Lemma buildPool_take (detailList : list (option Detail.t)) (src : list nat) :
  fst (buildPool detailList src)
  = take TOTAL_LEVELS (fst (shuffle (buildCountries detailList) src)).
Proof.
  unfold buildPool, bind.
  destruct (shuffle (buildCountries detailList) src). reflexivity.
Qed.

Lemma buildPool_length (detailList : list (option Detail.t)) (src : list nat) :
  length (fst (buildPool detailList src))
  = Nat.min TOTAL_LEVELS (length (buildCountries detailList)).
Proof.
  rewrite buildPool_take, length_take.
  rewrite (Permutation_length (shuffle_Permutation _ src)). reflexivity.
Qed.

Lemma buildPool_NoDup (detailList : list (option Detail.t)) (src : list nat) :
  NoDup (id <$> buildCountries detailList) ->
  NoDup (id <$> fst (buildPool detailList src)).
Proof.
  intros Hnd. rewrite buildPool_take, fmap_take.
  eapply sublist_NoDup; [|apply sublist_take].
  rewrite (shuffle_Permutation _ src). exact Hnd.
Qed.

End Pool.

(** C4, as the page has it.  [buildCountries] drops every entry without
    an ISO numeric code and keeps one record, in order, for every other
    entry, its [id] being the code parsed and printed back.  It removes no
    repetition: no two records share an [id] exactly when the parsed codes
    of the kept entries are pairwise distinct. *)
Theorem buildCountries_keeps_every_coded_entry `{RT : JsRuntime} :
  (forall detail,
      isoNumeric detail = None -> buildCountries [detail] = [])
  /\ (forall detail n,
        isoNumeric detail = Some n ->
        exists r, buildCountries [detail] = [r]
                  /\ id r = numberToString (parseInt10 n))
  /\ (forall l1 l2,
        buildCountries (l1 ++ l2) = buildCountries l1 ++ buildCountries l2)
  /\ (forall detailList,
        id <$> buildCountries detailList
        = (fun n => numberToString (parseInt10 n))
            <$> omap isoNumeric detailList)
  /\ (forall detailList,
        NoDup (id <$> buildCountries detailList)
        <-> NoDup ((fun n => numberToString (parseInt10 n))
                     <$> omap isoNumeric detailList)).
Proof.
  split.
  { intros detail Hn. apply buildCountry_None in Hn.
    unfold buildCountries. simpl. rewrite Hn. reflexivity. }
  split.
  { intros detail n Hn. unfold buildCountries. simpl.
    destruct (buildCountry detail) as [r|] eqn:Hr.
    - exists r. split; [reflexivity|].
      destruct (buildCountry_Some _ _ Hr) as (n' & Hn' & Hid). congruence.
    - apply buildCountry_None in Hr. congruence. }
  split; [intros l1 l2; apply omap_app|].
  split; [apply buildCountries_ids|].
  intros detailList. rewrite buildCountries_ids. reflexivity.
Qed.

(** The entry without a code gives no record, and Chad's gives one, with
    the [id] 148. *)
Lemma buildCountries_keeps_every_coded_entry_witness :
  @buildCountries latin1Runtime [strayDetail] = []
  /\ exists r, @buildCountries latin1Runtime [chadDetail] = [r]
               /\ id r = @numberToString latin1Runtime
                           (@parseInt10 latin1Runtime (lit "148")).
Proof.
  destruct (@buildCountries_keeps_every_coded_entry latin1Runtime)
    as (Hdrop & Hkeep & _).
  split.
  - apply (Hdrop strayDetail). reflexivity.
  - apply (Hkeep chadDetail (lit "148")). reflexivity.
Defined.

(** C4, as the specification has it, fails: of two entries under the code
    148, one written 0148, both records are returned, with the same [id]. *)
Lemma buildCountries_repeats_id :
  exists a b : Country,
    @buildCountries latin1Runtime repeatedDetails !! 0%nat = Some a
    /\ @buildCountries latin1Runtime repeatedDetails !! 1%nat = Some b
    /\ id a = lit "148" /\ id b = lit "148"
    /\ name a = lit "Chad" /\ name b = lit "Tchad".
Proof.
  eexists. eexists. vm_compute. repeat split; reflexivity.
Qed.

(** C5, as the page has it.  A pool is the first [min(100, N)] records of a
    permutation of the [N] loaded records; it has no two entries with the
    same [id] whenever the loaded records have none. *)
Theorem buildPool_prefix_of_permutation `{RT : JsRuntime}
    (detailList : list (option Detail.t)) (src : list nat) :
  length (fst (buildPool detailList src))
  = Nat.min 100 (length (buildCountries detailList))
  /\ (exists shuffled : list Country,
        shuffled ≡ₚ buildCountries detailList
        /\ fst (buildPool detailList src) = take 100 shuffled)
  /\ (NoDup (id <$> buildCountries detailList) ->
      NoDup (id <$> fst (buildPool detailList src))).
Proof.
  split; [apply buildPool_length|].
  split; [|apply buildPool_NoDup].
  exists (fst (shuffle (buildCountries detailList) src)).
  split; [apply shuffle_Permutation | apply buildPool_take].
Qed.

(** The pool of the sample data, which holds three distinct codes. *)
Lemma buildPool_prefix_of_permutation_witness :
  NoDup (id <$> fst (@buildPool latin1Runtime sampleDetails [2; 0]%nat)).
Proof.
  apply (@buildPool_prefix_of_permutation latin1Runtime sampleDetails
           [2; 0]%nat).
  apply (bool_decide_unpack _). vm_compute. exact I.
Defined.

(** C5, as the specification has it, fails: the pool built from the two
    entries under the code 148 has two entries with the same [id]. *)
Lemma buildPool_repeats_id :
  exists a b : Country,
    fst (@buildPool latin1Runtime repeatedDetails []) !! 0%nat = Some a
    /\ fst (@buildPool latin1Runtime repeatedDetails []) !! 1%nat = Some b
    /\ id a = id b
    /\ length (fst (@buildPool latin1Runtime repeatedDetails [])) = 2%nat.
Proof.
  eexists. eexists. vm_compute. repeat split; reflexivity.
Qed.

(** ** [handleGeoChoice] *)

Section GeoChoice.
Context `{RT : JsRuntime}.

Lemma handleGeoChoice_wrong (h : Hooks) (q : GeoQuestion) (opt : jsstring) :
  geoQuestion h = Some q ->
  normalizeAnswer opt <> normalizeAnswer (Geo.answer q) ->
  handleGeoChoice opt h
  = setStreak (fun _ => O)
      (setFeedback (lit "Geography check missed. Try another option.")
         (setAttempts S (setSelectedOption (Some opt) h))).
Proof.
  intros Hq Hne. unfold handleGeoChoice. rewrite Hq.
  apply str_eqb_neq in Hne. rewrite Hne. reflexivity.
Qed.

Lemma render_kept (h : Hooks) (src : list nat) :
  rendered h -> render h src = (h, src).
Proof.
  unfold rendered, render. intros Hr.
  rewrite bool_decide_eq_true_2 by congruence. reflexivity.
Qed.

Lemma render_rendered (h : Hooks) (src : list nat) :
  rendered (fst (render h src)).
Proof.
  unfold render. case_bool_decide as Hd; [symmetry; exact Hd|].
  unfold computeGeoQuestion, rendered.
  destruct (currentCountry h) as [c|]; [|reflexivity].
  unfold bind. destruct (buildGeoQuestion c src). reflexivity.
Qed.

Lemma dispatch_rendered (detailList : list (option Detail.t)) (ev : Event)
    (h : Hooks) (src : list nat) :
  rendered (fst (dispatch detailList ev h src)).
Proof.
  unfold dispatch, bind. destruct (handle detailList ev h src) as [h' src'].
  apply render_rendered.
Qed.

Lemma mount_rendered (detailList : list (option Detail.t)) (src : list nat) :
  rendered (fst (mount detailList src)).
Proof.
  unfold mount, bind. destruct (buildPool detailList src) as [pool src'].
  unfold computeGeoQuestion, rendered, currentCountry. simpl.
  destruct (pool !! 0%nat) as [c|]; [|reflexivity].
  unfold bind. destruct (buildGeoQuestion c src'). reflexivity.
Qed.

End GeoChoice.

(** C6, as the page has it.  In the Geo step, a choice whose normalized
    form differs from the normalized answer sets [streak] to 0 and the
    feedback, records the choice in [selectedOption] and adds one to
    [attempts]; the step stays Geo and every other cell is as it was: the
    pool, [levelIndex], [correctCount], the input, the pending timers and
    the memoized question.  The render that follows keeps that question
    without drawing anything. *)
Theorem handleGeoChoice_miss `{RT : JsRuntime}
    (detailList : list (option Detail.t)) (h : Hooks) (q : GeoQuestion)
    (opt : jsstring) (src : list nat) :
  step h = StepGeo ->
  geoQuestion h = Some q ->
  normalizeAnswer opt <> normalizeAnswer (Geo.answer q) ->
  handleGeoChoice opt h
  = {| countries := countries h; levelIndex := levelIndex h;
       step := StepGeo; answer := answer h;
       feedback := lit "Geography check missed. Try another option.";
       attempts := S (attempts h); correctCount := correctCount h;
       streak := 0; selectedOption := Some opt; showHint := showHint h;
       poolId := poolId h; geoDeps := geoDeps h;
       geoQuestion := Some q; timers := timers h |}
  /\ (rendered h ->
      dispatch detailList (ChooseOption opt) h src
      = (handleGeoChoice opt h, src)).
Proof.
  intros Hs Hq Hne. rewrite (handleGeoChoice_wrong h q opt Hq Hne).
  split.
  - unfold setStreak, setFeedback, setAttempts, setSelectedOption. simpl.
    rewrite Hs, Hq. reflexivity.
  - intros Hr. unfold dispatch, handle, bind, ret.
    rewrite (handleGeoChoice_wrong h q opt Hq Hne).
    apply render_kept. exact Hr.
Qed.

(** The option Yes for the question whether France is landlocked. *)
Lemma handleGeoChoice_miss_witness :
  @handleGeoChoice latin1Runtime (lit "Yes")
    (sessionAt [france] StepGeo [] (Some franceLandlocked))
  = {| countries := [france]; levelIndex := 0; step := StepGeo; answer := [];
       feedback := lit "Geography check missed. Try another option.";
       attempts := 1; correctCount := 0; streak := 0;
       selectedOption := Some (lit "Yes"); showHint := false;
       poolId := 0; geoDeps := Some (0%nat, 0%nat);
       geoQuestion := Some franceLandlocked; timers := [] |}
  /\ @dispatch latin1Runtime sampleDetails (ChooseOption (lit "Yes"))
       (sessionAt [france] StepGeo [] (Some franceLandlocked)) [1; 1]%nat
     = (@handleGeoChoice latin1Runtime (lit "Yes")
          (sessionAt [france] StepGeo [] (Some franceLandlocked)),
        [1; 1]%nat).
Proof.
  destruct (@handleGeoChoice_miss latin1Runtime sampleDetails
              (sessionAt [france] StepGeo [] (Some franceLandlocked))
              franceLandlocked (lit "Yes") [1; 1]%nat) as [Hframe Hrender].
  - reflexivity.
  - reflexivity.
  - vm_compute. discriminate.
  - split; [exact Hframe|]. apply Hrender. reflexivity.
Defined.

(** C6, as the specification has it, fails: the missed choice is counted
    as an attempt and remembered as the selected option, two cells beside
    [streak] and [feedback] that change. *)
Lemma handleGeoChoice_miss_counts_attempt :
  step (sessionAt [france] StepGeo [] (Some franceLandlocked)) = StepGeo
  /\ @normalizeAnswer latin1Runtime (lit "Yes")
     <> @normalizeAnswer latin1Runtime (Geo.answer franceLandlocked)
  /\ attempts (sessionAt [france] StepGeo [] (Some franceLandlocked)) = 0%nat
  /\ attempts
       (@handleGeoChoice latin1Runtime (lit "Yes")
          (sessionAt [france] StepGeo [] (Some franceLandlocked))) = 1%nat
  /\ selectedOption (sessionAt [france] StepGeo [] (Some franceLandlocked))
     = None
  /\ selectedOption
       (@handleGeoChoice latin1Runtime (lit "Yes")
          (sessionAt [france] StepGeo [] (Some franceLandlocked)))
     = Some (lit "Yes").
Proof.
  split; [reflexivity|]. split; [vm_compute; discriminate|].
  repeat split; vm_compute; reflexivity.
Qed.

(** ** The counters *)

Section Counters.
Context `{RT : JsRuntime}.

Lemma counted_refl (h : Hooks) : counted h h.
Proof. left. split; reflexivity. Qed.

Lemma handleSubmit_counted (h : Hooks) : counted h (handleSubmit h).
Proof.
  unfold handleSubmit, counted.
  destruct (currentCountry h) as [c|]; [|auto].
  destruct (str_truthy _); simpl; [|auto].
  destruct (step h); repeat (destruct (str_eqb _ _)); simpl; auto.
Qed.

Lemma handleGeoChoice_counted (opt : jsstring) (h : Hooks) :
  counted h (handleGeoChoice opt h).
Proof.
  unfold handleGeoChoice, counted.
  destruct (geoQuestion h) as [q|]; [|auto].
  destruct (str_eqb _ _); simpl; auto.
Qed.

Lemma handleAdvance_counted (f : bool) (h : Hooks) :
  counted h (handleAdvance f h).
Proof. unfold handleAdvance, counted. destruct f; simpl; auto. Qed.

Lemma restart_counted (detailList : list (option Detail.t)) (h : Hooks)
    (src : list nat) :
  counted h (fst (restart detailList h src)).
Proof.
  unfold restart, bind, counted.
  destruct (buildPool detailList src) as [built src']. simpl. auto.
Qed.

Lemma handle_counted (detailList : list (option Detail.t)) (ev : Event)
    (h : Hooks) (src : list nat) :
  counted h (fst (handle detailList ev h src)).
Proof.
  destruct ev; simpl.
  - left. split; reflexivity.
  - apply handleSubmit_counted.
  - apply handleGeoChoice_counted.
  - destruct (timers h) as [|f rest]; simpl; [apply counted_refl|].
    apply (handleAdvance_counted f (setTimers rest h)).
  - apply restart_counted.
  - left. split; reflexivity.
Qed.

Lemma render_counters (h : Hooks) (src : list nat) :
  attempts (fst (render h src)) = attempts h
  /\ correctCount (fst (render h src)) = correctCount h.
Proof.
  unfold render. destruct (bool_decide _); [split; reflexivity|].
  unfold computeGeoQuestion. destruct (currentCountry h) as [c|].
  - unfold bind. destruct (buildGeoQuestion c src). split; reflexivity.
  - split; reflexivity.
Qed.

Lemma dispatch_counted (detailList : list (option Detail.t)) (ev : Event)
    (h : Hooks) (src : list nat) :
  counted h (fst (dispatch detailList ev h src)).
Proof.
  unfold dispatch, bind.
  pose proof (handle_counted detailList ev h src) as Hc.
  destruct (handle detailList ev h src) as [h' src']. simpl in Hc.
  destruct (render_counters h' src') as [Ha Hk].
  unfold counted in *. rewrite Ha, Hk. exact Hc.
Qed.

Lemma mount_counters (detailList : list (option Detail.t)) (src : list nat) :
  attempts (fst (mount detailList src)) = 0%nat
  /\ correctCount (fst (mount detailList src)) = 0%nat.
Proof.
  unfold mount, bind. destruct (buildPool detailList src) as [pool src'].
  unfold computeGeoQuestion, currentCountry. simpl.
  destruct (pool !! 0%nat) as [c|]; [|split; reflexivity].
  unfold bind. destruct (buildGeoQuestion c src'). split; reflexivity.
Qed.

End Counters.

(** C8. [correctCount <= attempts] holds after the first render and is
    kept by every event of the page (the two submissions, the deferred
    advance, the restart, typing and the hint toggle) and by
    [handleAdvance] itself; and whenever an event adds one to
    [correctCount] it adds one to [attempts] too. *)
Theorem counters_ok_invariant `{RT : JsRuntime}
    (detailList : list (option Detail.t)) :
  (forall src, counters_ok (fst (mount detailList src)))
  /\ (forall ev h src,
        counters_ok h -> counters_ok (fst (dispatch detailList ev h src)))
  /\ (forall f h, counters_ok h -> counters_ok (handleAdvance f h))
  /\ (forall ev h src,
        correctCount (fst (dispatch detailList ev h src))
        = S (correctCount h) ->
        attempts (fst (dispatch detailList ev h src)) = S (attempts h)).
Proof.
  unfold counters_ok. repeat split.
  - intros src. destruct (mount_counters detailList src) as [-> ->]. lia.
  - intros ev h src Hok.
    pose proof (dispatch_counted detailList ev h src) as Hc.
    unfold counted in Hc. lia.
  - intros f h Hok.
    pose proof (handleAdvance_counted f h) as Hc. unfold counted in Hc. lia.
  - intros ev h src Hinc.
    pose proof (dispatch_counted detailList ev h src) as Hc.
    unfold counted in Hc. lia.
Qed.

(** A correct answer on a fresh session keeps the counters consistent and
    adds one to each. *)
Lemma counters_ok_invariant_witness :
  counters_ok
    (fst (@dispatch latin1Runtime sampleDetails Submit
            (sessionAt [france] StepCountry (lit "france") None) []))
  /\ attempts
       (fst (@dispatch latin1Runtime sampleDetails Submit
               (sessionAt [france] StepCountry (lit "france") None) []))
     = 1%nat.
Proof.
  destruct (@counters_ok_invariant latin1Runtime sampleDetails)
    as (_ & Hkeep & _ & Hinc).
  split.
  - apply Hkeep. unfold counters_ok. simpl. lia.
  - apply (Hinc Submit (sessionAt [france] StepCountry (lit "france") None)).
    vm_compute. reflexivity.
Defined.

(** ** The accuracy display *)

(** [Math_round] of a finite double [v * 2^e] is the floor of
    [v * 2^e + 1/2]. *)
Lemma Math_round_floor (x : float) (s : bool) (m : positive) (e : Z) :
  Prim2SF x = S754_finite s m e ->
  Math_round x
  = Some (let v := if s then Z.neg m else Z.pos m in
          if (0 <=? e)%Z then (v * 2 ^ e)%Z
          else ((2 * v + 2 ^ (- e)) / 2 ^ (1 - e))%Z).
Proof.
  intros Hx. unfold Math_round. rewrite Hx. cbv zeta. f_equal.
  destruct (Z.leb_spec 0 e) as [He|He].
  - apply Z.shiftl_mul_pow2. exact He.
  - rewrite Z.shiftr_div_pow2 by lia.
    rewrite Z.shiftl_mul_pow2 by lia. rewrite Z.mul_1_l. reflexivity.
Qed.

(** *** Rounding in binary64

    The operations of [PrimFloat] are specified by those of [SpecFloat]
    ([FloatAxioms.div_spec], [FloatAxioms.mul_spec], [of_uint63_spec]);
    the lemmas below bound the error of [SpecFloat]'s rounding against
    the real numbers. *)

Section Binary64.
Local Open Scope Z_scope.

Lemma digits2_pos_size (p : positive) : digits2_pos p = Pos.size p.
Proof. induction p; simpl; congruence. Qed.

Lemma Zdigits2_bounds (p : positive) :
  (2 ^ (Zdigits2 (Zpos p) - 1) <= Zpos p < 2 ^ Zdigits2 (Zpos p))%Z.
Proof.
  change (Zdigits2 (Zpos p)) with (Zpos (digits2_pos p)).
  rewrite digits2_pos_size.
  pose proof (Pos.size_gt p) as Hgt. pose proof (Pos.size_le p) as Hle.
  split.
  - apply Pos2Z.pos_le_pos in Hle.
    rewrite Pos2Z.inj_pow, (Pos2Z.inj_xO p) in Hle.
    assert (2 ^ Zpos (Pos.size p) = 2 * 2 ^ (Zpos (Pos.size p) - 1))%Z as E.
    { rewrite <- Z.pow_succ_r by lia. f_equal. lia. }
    lia.
  - apply Pos2Z.pos_lt_pos in Hgt. rewrite Pos2Z.inj_pow in Hgt. exact Hgt.
Qed.

Lemma Zdigits2_unique (p : positive) (d : Z) :
  (2 ^ (d - 1) <= Zpos p < 2 ^ d)%Z -> Zdigits2 (Zpos p) = d.
Proof.
  intros [Hlo Hhi]. pose proof (Zdigits2_bounds p) as [Hlo' Hhi'].
  assert (0 < Zdigits2 (Zpos p))%Z as Hpos by reflexivity.
  assert (0 < d)%Z as Hd.
  { destruct (Z.ltb_spec 0 d) as [|Hle]; [assumption|].
    assert (2 ^ d <= 1)%Z as Hsmall.
    { destruct (Z.eq_dec d 0) as [->|Hne]; [simpl; lia|].
      rewrite Z.pow_neg_r by lia. lia. }
    lia. }
  destruct (Z.lt_trichotomy (Zdigits2 (Zpos p)) d) as [Hlt|[Heq|Hgt]];
    [|exact Heq|].
  - assert (2 ^ Zdigits2 (Zpos p) <= 2 ^ (d - 1))%Z
      by (apply Z.pow_le_mono_r; lia). lia.
  - assert (2 ^ d <= 2 ^ (Zdigits2 (Zpos p) - 1))%Z
      by (apply Z.pow_le_mono_r; lia). lia.
Qed.

Lemma located_of_loc (m : Z) (l : location) :
  loc_of_shr_record (shr_record_of_loc m l) = l
  /\ shr_m (shr_record_of_loc m l) = m.
Proof. destruct l as [|[| |]]; split; reflexivity. Qed.

Lemma shr_1_located (mrs : shr_record) (y : R) :
  (0 <= shr_m mrs)%Z -> located mrs y ->
  located (shr_1 mrs) (y / 2)
  /\ shr_m (shr_1 mrs) = (shr_m mrs / 2)%Z.
Proof.
  destruct mrs as [m r s]. simpl. intros Hm.
  destruct m as [|p|p]; [| |lia].
  - unfold located. destruct r, s; simpl; intros H; split;
      try reflexivity; lra.
  - unfold located.
    destruct p as [p|p|].
    + rewrite Pos2Z.inj_xI.
      assert ((2 * Z.pos p + 1) / 2 = Z.pos p)%Z as Hd
        by (symmetry; apply (Z.div_unique _ 2 _ 1); lia).
      destruct r, s; simpl; rewrite ?Hd; rewrite ?plus_IZR, ?mult_IZR;
        intros H; split; try reflexivity; lra.
    + rewrite Pos2Z.inj_xO.
      assert ((2 * Z.pos p) / 2 = Z.pos p)%Z as Hd
        by (symmetry; apply (Z.div_unique _ 2 _ 0); lia).
      destruct r, s; simpl; rewrite ?Hd; rewrite ?mult_IZR;
        intros H; split; try reflexivity; lra.
    + destruct r, s; simpl; intros H; split; try reflexivity; lra.
Qed.

Lemma iter_shr_1_located (n : positive) (mrs : shr_record) (y : R) :
  (0 <= shr_m mrs)%Z -> located mrs y ->
  located (SpecFloat.iter_pos shr_1 n mrs) (y / IZR (2 ^ Zpos n))
  /\ shr_m (SpecFloat.iter_pos shr_1 n mrs) = (shr_m mrs / 2 ^ Zpos n)%Z.
Proof.
  revert mrs y. induction n as [n IH|n IH|]; intros mrs y Hm Hy.
  - simpl SpecFloat.iter_pos.
    destruct (shr_1_located mrs y Hm Hy) as [H1 E1].
    assert (0 <= shr_m (shr_1 mrs))%Z as Hm1
      by (rewrite E1; apply Z.div_pos; lia).
    destruct (IH _ _ Hm1 H1) as [H2 E2].
    assert (0 <= shr_m (SpecFloat.iter_pos shr_1 n (shr_1 mrs)))%Z as Hm2
      by (rewrite E2; apply Z.div_pos; lia).
    destruct (IH _ _ Hm2 H2) as [H3 E3].
    assert (2 ^ Zpos n~1 = 2 * 2 ^ Zpos n * 2 ^ Zpos n)%Z as Hp.
    { replace (Zpos n~1) with (1 + Zpos n + Zpos n)%Z by lia.
      rewrite !Z.pow_add_r by lia. reflexivity. }
    assert (0 < 2 ^ Zpos n)%Z as Hpos by (apply Z.pow_pos_nonneg; lia).
    split.
    + rewrite Hp, !mult_IZR.
      replace (y / (2 * IZR (2 ^ Zpos n) * IZR (2 ^ Zpos n)))%R
        with (y / 2 / IZR (2 ^ Zpos n) / IZR (2 ^ Zpos n))%R; [exact H3|].
      assert (0 < IZR (2 ^ Zpos n))%R by (apply IZR_lt; exact Hpos).
      field. lra.
    + rewrite E3, E2, E1, Hp, !Z.div_div by lia.
      f_equal. lia.
  - simpl SpecFloat.iter_pos.
    destruct (IH _ _ Hm Hy) as [H2 E2].
    assert (0 <= shr_m (SpecFloat.iter_pos shr_1 n mrs))%Z as Hm2
      by (rewrite E2; apply Z.div_pos; [lia | apply Z.pow_pos_nonneg; lia]).
    destruct (IH _ _ Hm2 H2) as [H3 E3].
    assert (2 ^ Zpos n~0 = 2 ^ Zpos n * 2 ^ Zpos n)%Z as Hp.
    { replace (Zpos n~0) with (Zpos n + Zpos n)%Z by lia.
      rewrite Z.pow_add_r by lia. reflexivity. }
    assert (0 < 2 ^ Zpos n)%Z as Hpos by (apply Z.pow_pos_nonneg; lia).
    split.
    + rewrite Hp, !mult_IZR.
      replace (y / (IZR (2 ^ Zpos n) * IZR (2 ^ Zpos n)))%R
        with (y / IZR (2 ^ Zpos n) / IZR (2 ^ Zpos n))%R; [exact H3|].
      assert (0 < IZR (2 ^ Zpos n))%R by (apply IZR_lt; exact Hpos).
      field. lra.
    + rewrite E3, E2, Hp, !Z.div_div by lia. reflexivity.
  - simpl SpecFloat.iter_pos. change (2 ^ 1)%Z with 2%Z.
    apply shr_1_located; assumption.
Qed.

Lemma pow2_IZR (n : Z) : 0 <= n -> IZR (2 ^ n) = powerRZ 2 n.
Proof.
  destruct n as [|p|p]; intros Hn; [reflexivity| |lia].
  apply Zpower_pos_powerRZ.
Qed.

Lemma pow2R_pos (e : Z) : (0 < powerRZ 2 e)%R.
Proof. apply powerRZ_lt. lra. Qed.

Lemma pow2R_add (a b : Z) :
  powerRZ 2 (a + b) = (powerRZ 2 a * powerRZ 2 b)%R.
Proof. apply powerRZ_add. lra. Qed.

Lemma shr_located (mrs : shr_record) (e n : Z) (y : R) :
  0 <= shr_m mrs -> 0 <= n -> located mrs y ->
  located (fst (shr mrs e n)) (y / IZR (2 ^ n))
  /\ shr_m (fst (shr mrs e n)) = shr_m mrs / 2 ^ n
  /\ snd (shr mrs e n) = e + n.
Proof.
  intros Hm Hn Hy. destruct n as [|p|p]; [| |lia].
  - simpl shr; simpl fst; simpl snd. change (2 ^ 0) with 1.
    rewrite Z.div_1_r, Z.add_0_r.
    replace (y / 1)%R with y by field. auto.
  - simpl shr. simpl fst. simpl snd.
    destruct (iter_shr_1_located p mrs y Hm Hy) as [H1 H2]. auto.
Qed.

Lemma round_nearest_even_located (mrs : shr_record) (y : R) :
  located mrs y ->
  shr_m mrs <= round_nearest_even (shr_m mrs) (loc_of_shr_record mrs)
            <= shr_m mrs + 1
  /\ (Rabs (IZR (round_nearest_even (shr_m mrs) (loc_of_shr_record mrs)) - y)
      <= / 2)%R.
Proof.
  unfold located, round_nearest_even.
  destruct (loc_of_shr_record mrs) as [|[| |]]; intros H.
  - split; [lia|]. apply Rabs_le. lra.
  - destruct (Z.even (shr_m mrs)); rewrite ?plus_IZR;
      (split; [lia|]); apply Rabs_le; lra.
  - split; [lia|]. apply Rabs_le. lra.
  - rewrite plus_IZR. split; [lia|]. apply Rabs_le. lra.
Qed.

Lemma fexp_normal (e : Z) : -1021 <= e -> fexp prec emax e = e - 53.
Proof.
  intros He. unfold fexp, emin, prec, emax. lia.
Qed.

(** What [binary_round_aux] returns for a mantissa of at least 53 bits
    that stands, with its location, for the real [x]: a normal number
    within half a unit in the last place of [x * 2^ex]. *)
Lemma binary_round_aux_spec (mx : positive) (ex : Z) (lx : location) (x : R) :
  2 ^ 52 <= Zpos mx -> -1074 <= ex -> ex + Zdigits2 (Zpos mx) <= 1000 ->
  located (shr_record_of_loc (Zpos mx) lx) x ->
  exists (m : positive) (e : Z),
    binary_round_aux prec emax false (Zpos mx) ex lx = S754_finite false m e
    /\ 2 ^ 52 <= Zpos m < 2 ^ 53
    /\ ex <= e <= ex + Zdigits2 (Zpos mx) - 52
    /\ (Rabs (IZR (Zpos m) * powerRZ 2 e - x * powerRZ 2 ex)
        <= powerRZ 2 e / 2)%R.
Proof.
  intros Hmx Hex Htop Hx.
  pose proof (Zdigits2_bounds mx) as [Hlo Hhi].
  remember (Zdigits2 (Zpos mx)) as d eqn:Ed.
  assert (53 <= d) as Hd.
  { destruct (Z.le_gt_cases 53 d) as [|Hlt]; [assumption|].
    assert (2 ^ d <= 2 ^ 52) by (apply Z.pow_le_mono_r; lia). lia. }
  unfold binary_round_aux, shr_fexp. rewrite <- Ed.
  rewrite (fexp_normal (d + ex)) by lia.
  replace (d + ex - 53 - ex) with (d - 53) by lia.
  destruct (located_of_loc (Zpos mx) lx) as [Hloc Hm0].
  destruct (shr_located (shr_record_of_loc (Zpos mx) lx) ex (d - 53) x)
    as (H1 & Hm1 & He1); [rewrite Hm0; lia | lia | exact Hx |].
  destruct (shr (shr_record_of_loc (Zpos mx) lx) ex (d - 53))
    as [mrs1 e1]. simpl fst in *. simpl snd in *. rewrite Hm0 in Hm1.
  assert (0 < 2 ^ (d - 53)) as Hpn by (apply Z.pow_pos_nonneg; lia).
  assert (2 ^ (d - 1) = 2 ^ 52 * 2 ^ (d - 53)) as Hsplit1.
  { rewrite <- Z.pow_add_r by lia. f_equal. lia. }
  assert (2 ^ d = 2 ^ 53 * 2 ^ (d - 53)) as Hsplit2.
  { rewrite <- Z.pow_add_r by lia. f_equal. lia. }
  assert (2 ^ 52 <= shr_m mrs1 < 2 ^ 53) as Hb1.
  { rewrite Hm1. split.
    - apply Z.div_le_lower_bound; lia.
    - apply Z.div_lt_upper_bound; lia. }
  destruct (round_nearest_even_located mrs1 _ H1) as [Hb2 Herr].
  set (m2 := round_nearest_even (shr_m mrs1) (loc_of_shr_record mrs1)) in *.
  assert (powerRZ 2 e1 = powerRZ 2 ex * IZR (2 ^ (d - 53)))%R as Hpe1.
  { rewrite He1, pow2R_add, pow2_IZR by lia. reflexivity. }
  assert (Rabs (IZR m2 * powerRZ 2 e1 - x * powerRZ 2 ex)
          <= powerRZ 2 e1 / 2)%R as Hval.
  { assert (0 < IZR (2 ^ (d - 53)))%R as Hp by (apply IZR_lt; exact Hpn).
    pose proof (pow2R_pos ex) as Hpex.
    replace (IZR m2 * powerRZ 2 e1 - x * powerRZ 2 ex)%R
      with ((IZR m2 - x / IZR (2 ^ (d - 53))) * powerRZ 2 e1)%R
      by (rewrite Hpe1; field; lra).
    rewrite Rabs_mult, (Rabs_pos_eq (powerRZ 2 e1))
      by (left; apply pow2R_pos).
    pose proof (pow2R_pos e1). nra. }
  destruct (Z.eq_dec m2 (2 ^ 53)) as [Heq|Hne].
  - (* the mantissa rounds up to 2^53 *)
    rewrite Heq.
    change (Zdigits2 (2 ^ 53)) with 54.
    rewrite (fexp_normal (54 + e1)) by lia.
    replace (54 + e1 - 53 - e1) with 1 by lia.
    cbn -[Z.pow Z.leb Z.sub Z.add].
    assert ((e1 + 1 <=? emax - prec) = true) as Hle
      by (apply Z.leb_le; unfold emax, prec; lia).
    rewrite Hle.
    exists (2 ^ 52)%positive, (e1 + 1).
    split; [reflexivity|].
    split; [vm_compute; split; [discriminate | reflexivity]|].
    split; [lia|].
    rewrite Heq in Hval.
    replace (IZR (Zpos (2 ^ 52)) * powerRZ 2 (e1 + 1))%R
      with (IZR (2 ^ 53) * powerRZ 2 e1)%R.
    + rewrite pow2R_add. simpl (powerRZ 2 1).
      pose proof (pow2R_pos e1). lra.
    + rewrite pow2R_add. simpl (powerRZ 2 1).
      change (2 ^ 53) with (2 * Zpos (2 ^ 52)). rewrite mult_IZR. ring.
  - assert (2 ^ 52 <= m2 < 2 ^ 53) as Hb by lia.
    destruct m2 as [|p2|p2] eqn:Em2; [lia| |lia].
    rewrite (Zdigits2_unique p2 53) by (simpl (53 - 1); exact Hb).
    rewrite (fexp_normal (53 + e1)) by lia.
    replace (53 + e1 - 53 - e1) with 0 by lia.
    cbn -[Z.pow Z.leb Z.sub Z.add].
    assert ((e1 <=? emax - prec) = true) as Hle
      by (apply Z.leb_le; unfold emax, prec; lia).
    rewrite Hle.
    exists p2, e1. split; [reflexivity|]. split; [exact Hb|].
    split; [lia | exact Hval].
Qed.

Lemma Zdigits2_le (p : positive) (d : Z) :
  Zpos p < 2 ^ d -> 0 <= d -> Zdigits2 (Zpos p) <= d.
Proof.
  intros Hp Hd. pose proof (Zdigits2_bounds p) as [Hlo _].
  destruct (Z.le_gt_cases (Zdigits2 (Zpos p)) d) as [|Hgt]; [assumption|].
  assert (2 ^ d <= 2 ^ (Zdigits2 (Zpos p) - 1))
    by (apply Z.pow_le_mono_r; lia).
  lia.
Qed.

Lemma binary_round_aux_exact (m : positive) (e : Z) :
  2 ^ 52 <= Zpos m < 2 ^ 53 -> -1074 <= e <= 971 ->
  binary_round_aux prec emax false (Zpos m) e loc_Exact
  = S754_finite false m e.
Proof.
  intros Hm He. unfold binary_round_aux, shr_fexp.
  rewrite (Zdigits2_unique m 53) by (simpl (53 - 1); exact Hm).
  rewrite (fexp_normal (53 + e)) by lia.
  replace (53 + e - 53 - e) with 0 by lia.
  cbn -[Z.pow Z.leb Z.sub Z.add Zdigits2 fexp].
  rewrite (Zdigits2_unique m 53) by (simpl (53 - 1); exact Hm).
  rewrite (fexp_normal (53 + e)) by lia.
  replace (53 + e - 53 - e) with 0 by lia.
  cbn -[Z.pow Z.leb Z.sub Z.add].
  assert ((e <=? emax - prec) = true) as Hle
    by (apply Z.leb_le; unfold emax, prec; lia).
  rewrite Hle. reflexivity.
Qed.

Lemma iter_xO (p k : positive) :
  Zpos (Pos.iter xO p k) = Zpos p * 2 ^ Zpos k.
Proof.
  induction k as [|k IH] using Pos.peano_ind.
  - simpl. lia.
  - rewrite Pos.iter_succ, Pos2Z.inj_xO, IH, Pos2Z.inj_succ.
    rewrite Z.pow_succ_r by lia. lia.
Qed.

(** A counter below 2^53 is a double, exactly. *)
Lemma number_exact (n : nat) :
  (0 < n)%nat -> Z.of_nat n < 2 ^ 53 ->
  exists (m : positive) (e : Z),
    Prim2SF (number n) = S754_finite false m e
    /\ 2 ^ 52 <= Zpos m < 2 ^ 53
    /\ -52 <= e <= 0
    /\ (IZR (Zpos m) * powerRZ 2 e)%R = IZR (Z.of_nat n).
Proof.
  intros Hn Hlt. unfold number.
  rewrite of_uint63_spec, Uint63.of_Z_spec.
  assert (wB = 2 ^ 63) as HwB by reflexivity.
  rewrite Z.mod_small by (rewrite HwB; lia).
  destruct (Z.of_nat n) as [|p|p] eqn:Ep; [lia| |lia].
  unfold binary_normalize, binary_round.
  pose proof (Zdigits2_bounds p) as [Hlo Hhi].
  pose proof (Zdigits2_le p 53 Hlt ltac:(lia)) as Hd53.
  change (Zpos (digits2_pos p)) with (Zdigits2 (Zpos p)).
  remember (Zdigits2 (Zpos p)) as d eqn:Ed.
  assert (1 <= d) as Hd1 by (rewrite Ed; simpl; lia).
  rewrite (fexp_normal (d + 0)) by lia.
  unfold shl_align.
  replace (d + 0 - 53 - 0) with (d - 53) by lia.
  destruct (d - 53) as [|k|k] eqn:Ek; [| lia |].
  - assert (d = 53) as -> by lia.
    rewrite binary_round_aux_exact by (simpl (53 - 1) in Hlo; lia).
    exists p, 0. split; [reflexivity|].
    split; [simpl (53 - 1) in Hlo; lia|]. split; [lia|].
    simpl. ring.
  - assert (Zpos k = 53 - d) as Hk by lia.
    assert (2 ^ 52 <= Zpos (Pos.iter xO p k) < 2 ^ 53) as Hb.
    { rewrite iter_xO, Hk.
      assert (2 ^ 52 = 2 ^ (d - 1) * 2 ^ (53 - d)) as ->
        by (rewrite <- Z.pow_add_r by lia; f_equal; lia).
      assert (2 ^ 53 = 2 ^ d * 2 ^ (53 - d)) as ->
        by (rewrite <- Z.pow_add_r by lia; f_equal; lia).
      assert (0 < 2 ^ (53 - d)) by (apply Z.pow_pos_nonneg; lia).
      split; [apply Z.mul_le_mono_nonneg_r | apply Z.mul_lt_mono_pos_r];
        lia. }
    rewrite binary_round_aux_exact by (exact Hb || lia).
    exists (Pos.iter xO p k), (d + 0 - 53).
    split; [reflexivity|]. split; [exact Hb|]. split; [lia|].
    rewrite iter_xO, Hk, mult_IZR, pow2_IZR by lia.
    rewrite Rmult_assoc, <- pow2R_add.
    replace (53 - d + (d + 0 - 53)) with 0 by lia. simpl. ring.
Qed.

Lemma new_location_located (q r my : Z) :
  0 < my -> 0 <= r < my ->
  located (shr_record_of_loc q (new_location my r))
    (IZR q + IZR r / IZR my).
Proof.
  intros Hmy Hr.
  assert (0 < IZR my)%R as Hmy' by (apply IZR_lt; exact Hmy).
  assert (forall a b : Z, a < b -> (IZR a / IZR my < IZR b / IZR my)%R)
    as Hmono.
  { intros a b Hab. apply Rmult_lt_compat_r;
      [apply Rinv_0_lt_compat; exact Hmy' | apply IZR_lt; exact Hab]. }
  assert (IZR my / IZR my = 1)%R as Hone by (field; lra).
  assert (forall a : Z, (IZR (2 * a) / IZR my = 2 * (IZR a / IZR my))%R)
    as Hdouble.
  { intros a. rewrite mult_IZR. field. lra. }
  unfold located.
  destruct (located_of_loc q (new_location my r)) as [-> ->].
  unfold new_location.
  destruct (Z.even my) eqn:Hev;
    [unfold new_location_even | unfold new_location_odd];
    destruct (Z.eqb_spec r 0) as [->|Hr0];
    try (unfold Rdiv; rewrite Rmult_0_l; ring).
  - pose proof (Hmono 0 r ltac:(lia)) as Hpos.
    unfold Rdiv at 1 in Hpos. rewrite Rmult_0_l in Hpos.
    destruct (Z.compare_spec (2 * r) my) as [Heq|Hlt|Hgt].
    + rewrite <- Heq in Hone at 1. rewrite Hdouble in Hone. lra.
    + pose proof (Hmono _ _ Hlt) as H. rewrite Hdouble, Hone in H. lra.
    + pose proof (Hmono _ _ Hgt) as H. rewrite Hdouble, Hone in H.
      pose proof (Hmono r my ltac:(lia)) as H'. rewrite Hone in H'. lra.
  - pose proof (Hmono 0 r ltac:(lia)) as Hpos.
    unfold Rdiv at 1 in Hpos. rewrite Rmult_0_l in Hpos.
    assert (2 * r <> my) as Hodd.
    { intros E. rewrite <- E, Z.even_mul in Hev. discriminate. }
    destruct (Z.compare_spec (2 * r + 1) my) as [Heq|Hlt|Hgt].
    + pose proof (Hmono (2 * r) my ltac:(lia)) as H.
      rewrite Hdouble, Hone in H. lra.
    + pose proof (Hmono (2 * r) my ltac:(lia)) as H.
      rewrite Hdouble, Hone in H. lra.
    + pose proof (Hmono my (2 * r) ltac:(lia)) as H.
      rewrite Hdouble, Hone in H.
      pose proof (Hmono r my ltac:(lia)) as H'. rewrite Hone in H'. lra.
Qed.

(** The quotient of two normal doubles with small exponents is within
    half a unit in the last place of the real quotient. *)
Lemma SF64div_spec (mx my : positive) (ex ey : Z) :
  2 ^ 52 <= Zpos mx < 2 ^ 53 -> 2 ^ 52 <= Zpos my < 2 ^ 53 ->
  -52 <= ex <= 0 -> -52 <= ey <= 0 ->
  exists (m : positive) (e : Z),
    SF64div (S754_finite false mx ex) (S754_finite false my ey)
    = S754_finite false m e
    /\ 2 ^ 52 <= Zpos m < 2 ^ 53
    /\ -105 <= e <= 3
    /\ (Rabs (IZR (Zpos m) * powerRZ 2 e
              - (IZR (Zpos mx) * powerRZ 2 ex)
                / (IZR (Zpos my) * powerRZ 2 ey))
        <= powerRZ 2 e / 2)%R.
Proof.
  intros Hmx Hmy Hex Hey.
  unfold SF64div, SFdiv, SFdiv_core_binary.
  rewrite (Zdigits2_unique mx 53), (Zdigits2_unique my 53)
    by (simpl (53 - 1); assumption).
  rewrite (fexp_normal (53 + ex - (53 + ey))) by lia.
  rewrite Z.min_l by lia.
  replace (ex - ey - (53 + ex - (53 + ey) - 53)) with 53 by lia.
  rewrite Z.shiftl_mul_pow2 by lia.
  pose proof (Z_div_mod (Zpos mx * 2 ^ 53) (Zpos my) ltac:(lia)) as Hdm.
  destruct (Z.div_eucl (Zpos mx * 2 ^ 53) (Zpos my)) as [q r].
  destruct Hdm as [Hdm Hr]. simpl xorb.
  assert (2 ^ 52 <= q < 2 ^ 54) as Hq.
  { change (2 ^ 54) with (2 * 2 ^ 53). change (2 ^ 53) with (2 * 2 ^ 52) in *.
    nia. }
  destruct q as [|pq|pq]; [lia| |lia].
  remember (53 + ex - (53 + ey) - 53) as e' eqn:Ee'.
  pose proof (Zdigits2_le pq 54 ltac:(lia) ltac:(lia)) as Hdq.
  destruct (binary_round_aux_spec pq e' (new_location (Zpos my) r)
              (IZR (Zpos pq) + IZR r / IZR (Zpos my)))
    as (m & e & Hres & Hm & He & Herr);
    [lia | lia | lia | apply new_location_located; lia |].
  exists m, e. split; [exact Hres|]. split; [exact Hm|]. split; [lia|].
  replace ((IZR (Zpos mx) * powerRZ 2 ex) / (IZR (Zpos my) * powerRZ 2 ey))%R
    with ((IZR (Zpos pq) + IZR r / IZR (Zpos my)) * powerRZ 2 e')%R;
    [exact Herr|].
  assert (powerRZ 2 ex = powerRZ 2 e' * (powerRZ 2 ey * IZR (2 ^ 53)))%R
    as Hk.
  { rewrite pow2_IZR, <- !pow2R_add by lia. f_equal. lia. }
  assert (IZR (Zpos mx) * IZR (2 ^ 53)
          = IZR (Zpos my) * IZR (Zpos pq) + IZR r)%R as Hdm'.
  { rewrite <- !mult_IZR, <- plus_IZR. f_equal. exact Hdm. }
  pose proof (pow2R_pos ey). pose proof (pow2R_pos e').
  assert (0 < IZR (Zpos my))%R by (apply IZR_lt; lia).
  assert (0 < IZR (2 ^ 53))%R by (apply IZR_lt; reflexivity).
  rewrite Hk.
  replace (IZR (Zpos mx))
    with ((IZR (Zpos my) * IZR (Zpos pq) + IZR r) / IZR (2 ^ 53))%R
    by (rewrite <- Hdm'; field; lra).
  field. lra.
Qed.

(** The product of two normal doubles with small exponents is within half
    a unit in the last place of the real product. *)
Lemma SF64mul_spec (mx my : positive) (ex ey : Z) :
  2 ^ 52 <= Zpos mx < 2 ^ 53 -> 2 ^ 52 <= Zpos my < 2 ^ 53 ->
  -200 <= ex <= 200 -> -200 <= ey <= 200 ->
  exists (m : positive) (e : Z),
    SF64mul (S754_finite false mx ex) (S754_finite false my ey)
    = S754_finite false m e
    /\ 2 ^ 52 <= Zpos m < 2 ^ 53
    /\ (Rabs (IZR (Zpos m) * powerRZ 2 e
              - (IZR (Zpos mx) * powerRZ 2 ex)
                * (IZR (Zpos my) * powerRZ 2 ey))
        <= powerRZ 2 e / 2)%R.
Proof.
  intros Hmx Hmy Hex Hey.
  unfold SF64mul, SFmul. simpl xorb.
  assert (2 ^ 52 <= Zpos (mx * my) < 2 ^ 106) as Hp.
  { rewrite Pos2Z.inj_mul.
    change (2 ^ 106) with (2 ^ 53 * 2 ^ 53).
    change (2 ^ 52) with (1 * 2 ^ 52) at 1. nia. }
  pose proof (Zdigits2_le (mx * my) 106 ltac:(lia) ltac:(lia)) as Hd.
  destruct (binary_round_aux_spec (mx * my) (ex + ey) loc_Exact
              (IZR (Zpos (mx * my))))
    as (m & e & Hres & Hm & He & Herr);
    [lia | lia | lia | reflexivity |].
  exists m, e. split; [exact Hres|]. split; [exact Hm|].
  replace ((IZR (Zpos mx) * powerRZ 2 ex) * (IZR (Zpos my) * powerRZ 2 ey))%R
    with (IZR (Zpos (mx * my)) * powerRZ 2 (ex + ey))%R; [exact Herr|].
  rewrite Pos2Z.inj_mul, mult_IZR, pow2R_add. ring.
Qed.

Lemma Rabs_bounds (x y : R) : (Rabs x <= y)%R -> (- y <= x <= y)%R.
Proof. intros H. unfold Rabs in H. destruct (Rcase_abs x); lra. Qed.

(** Half a unit in the last place is at most 2^-53 of the value. *)
Lemma ulp_relative (m : positive) (e : Z) (x : R) :
  2 ^ 52 <= Zpos m ->
  (Rabs (IZR (Zpos m) * powerRZ 2 e - x) <= powerRZ 2 e / 2)%R ->
  (- (IZR (Zpos m) * powerRZ 2 e * / 9007199254740992)
   <= IZR (Zpos m) * powerRZ 2 e - x
   <= IZR (Zpos m) * powerRZ 2 e * / 9007199254740992)%R.
Proof.
  intros Hm H. pose proof (pow2R_pos e) as Hu.
  replace (2 ^ 52) with 4503599627370496 in Hm by reflexivity.
  apply IZR_le in Hm. apply Rabs_bounds in H.
  assert (4503599627370496 * powerRZ 2 e
          <= IZR (Zpos m) * powerRZ 2 e)%R
    by (apply Rmult_le_compat_r; lra).
  lra.
Qed.

(** [Math.round] of a positive double with a negative exponent is the
    floor of the value plus one half. *)
Lemma Math_round_bracket (x : float) (m : positive) (e : Z) :
  Prim2SF x = S754_finite false m e -> e < 0 ->
  exists z : Z,
    Math_round x = Some z
    /\ (IZR z <= IZR (Zpos m) * powerRZ 2 e + / 2 < IZR z + 1)%R.
Proof.
  intros Hx He. rewrite (Math_round_floor x false m e Hx). cbv zeta.
  destruct (Z.leb_spec 0 e) as [|_]; [lia|].
  eexists. split; [reflexivity|].
  assert (0 < 2 ^ (- e)) as HT by (apply Z.pow_pos_nonneg; lia).
  assert (powerRZ 2 e * IZR (2 ^ (- e)) = 1)%R as HTe.
  { rewrite pow2_IZR, <- pow2R_add by lia.
    replace (e + - e) with 0 by lia. reflexivity. }
  replace (2 ^ (1 - e)) with (2 * 2 ^ (- e))
    by (rewrite <- Z.pow_succ_r by lia; f_equal; lia).
  remember (2 ^ (- e)) as T eqn:ET.
  remember ((2 * Zpos m + T) / (2 * T)) as z eqn:Ez.
  pose proof (Z.mul_div_le (2 * Zpos m + T) (2 * T) ltac:(lia)) as Hz1.
  pose proof (Z.mul_succ_div_gt (2 * Zpos m + T) (2 * T) ltac:(lia)) as Hz2.
  rewrite <- Ez in Hz1, Hz2. unfold Z.succ in Hz2.
  apply IZR_le in Hz1. apply IZR_lt in Hz2.
  rewrite ?mult_IZR, ?plus_IZR, ?mult_IZR in Hz1.
  rewrite ?mult_IZR, ?plus_IZR, ?mult_IZR in Hz2.
  remember (IZR (Zpos m) * powerRZ 2 e)%R as P eqn:EP.
  assert (IZR (Zpos m) = P * IZR T)%R as Hm
    by (rewrite EP, Rmult_assoc, HTe; ring).
  assert (0 < IZR T)%R by (apply IZR_lt; assumption).
  rewrite Hm in Hz1, Hz2.
  split;
    [apply (Rmult_le_reg_l (2 * IZR T)) | apply (Rmult_lt_reg_l (2 * IZR T))];
    lra.
Qed.

(** The display of the accuracy, for up to 2^44 attempts: an error of at
    most 201 * 2^-53 is made before [Math.round], less than the distance
    1 / (2 * attempts) of a fraction that is not a tie to the next tie. *)
Lemma accuracy_rounds (c a : nat) :
  (0 < a)%nat -> Z.of_nat a <= 2 ^ 44 -> (c <= a)%nat ->
  exists shown : Z,
    accuracy c a = Some shown
    /\ (shown = round_half_up (100 * Z.of_nat c) (Z.of_nat a)
        \/ (is_tie (100 * Z.of_nat c) (Z.of_nat a) = true
            /\ shown = round_half_up (100 * Z.of_nat c) (Z.of_nat a) - 1)).
Proof.
  intros Ha Hbound Hca.
  assert (accuracy c a
          = Math_round (PrimFloat.mul (PrimFloat.div (number c) (number a))
                          (number 100))) as ->
    by (destruct a; [lia | reflexivity]).
  assert (Z.of_nat a < 2 ^ 53) as Ha53
    by (change (2 ^ 53) with (512 * 2 ^ 44); lia).
  destruct (number_exact a Ha Ha53) as (ma & ea & HKa & Hma & Hea & Hva).
  destruct (number_exact 100 ltac:(lia) ltac:(reflexivity))
    as (mh & eh & HKh & Hmh & Heh & Hvh).
  destruct (Nat.eq_dec c 0%nat) as [->|Hc].
  - exists 0. split.
    + unfold Math_round.
      rewrite FloatAxioms.mul_spec, FloatAxioms.div_spec, HKa, HKh.
      reflexivity.
    + left. unfold round_half_up. symmetry. apply Z.div_small. lia.
  - destruct (number_exact c ltac:(lia) ltac:(lia))
      as (mc & ec & HKc & Hmc & Hec & Hvc).
    destruct (SF64div_spec mc ma ec ea Hmc Hma Hec Hea)
      as (m1 & e1 & HK1 & Hm1 & He1 & Herr1).
    destruct (SF64mul_spec m1 mh e1 eh Hm1 Hmh ltac:(lia) ltac:(lia))
      as (m2 & e2 & HK2 & Hm2 & Herr2).
    assert (Prim2SF (PrimFloat.mul (PrimFloat.div (number c) (number a))
                       (number 100)) = S754_finite false m2 e2) as HK
      by (rewrite FloatAxioms.mul_spec, FloatAxioms.div_spec,
            HKc, HKa, HKh, HK1; exact HK2).
    rewrite Hvc, Hva in Herr1. rewrite Hvh in Herr2.
    apply (ulp_relative m1 e1 _ (proj1 Hm1)) in Herr1.
    apply (ulp_relative m2 e2 _ (proj1 Hm2)) in Herr2.
    change (IZR (Z.of_nat 100)) with 100%R in Herr2.
    remember (Z.of_nat c) as C eqn:EC.
    remember (Z.of_nat a) as A eqn:EA.
    assert (0 < C <= A) as HCA by lia.
    assert (0 < IZR A)%R as HA0 by (apply IZR_lt; lia).
    assert (0 < IZR C)%R as HC0 by (apply IZR_lt; lia).
    assert (IZR C <= IZR A)%R as HCA' by (apply IZR_le; lia).
    remember (IZR C / IZR A)%R as q eqn:Eq.
    assert (0 < q <= 1)%R as Hq.
    { rewrite Eq. split; [apply Rdiv_lt_0_compat; assumption|].
      apply (Rmult_le_reg_r (IZR A)); [assumption|].
      unfold Rdiv. rewrite Rmult_assoc, Rinv_l by lra. lra. }
    remember (IZR (Zpos m1) * powerRZ 2 e1)%R as V eqn:EV.
    remember (IZR (Zpos m2) * powerRZ 2 e2)%R as P eqn:EP.
    assert (- (201 * / 9007199254740992) <= P - 100 * q
            <= 201 * / 9007199254740992)%R as Herr by lra.
    assert (e2 < 0) as He2.
    { destruct (Z.lt_ge_cases e2 0) as [|Hge]; [assumption|exfalso].
      assert (1 <= 2 ^ e2) as Hp
        by (pose proof (Z.pow_pos_nonneg 2 e2 ltac:(lia) Hge); lia).
      apply IZR_le in Hp. rewrite pow2_IZR in Hp by lia.
      destruct Hm2 as [Hm2 _].
      replace (2 ^ 52) with 4503599627370496 in Hm2 by reflexivity.
      apply IZR_le in Hm2.
      assert (4503599627370496 * 1 <= P)%R
        by (rewrite EP; apply Rmult_le_compat; lra).
      lra. }
    destruct (Math_round_bracket _ m2 e2 HK He2) as (z & Hz & Hzb).
    rewrite <- EP in Hzb.
    exists z. split; [exact Hz|].
    unfold round_half_up, is_tie.
    remember ((2 * (100 * C) + A) / (2 * A)) as R eqn:ER.
    pose proof (Z.div_mod (2 * (100 * C) + A) (2 * A) ltac:(lia)) as Hdm.
    pose proof (Z.mod_pos_bound (2 * (100 * C) + A) (2 * A) ltac:(lia))
      as Hs.
    rewrite <- ER in Hdm.
    remember ((2 * (100 * C) + A) mod (2 * A)) as s eqn:Es.
    assert (100 * q + / 2 = IZR R + IZR s * / IZR (2 * A))%R as Hreal.
    { assert (IZR (2 * (100 * C) + A) = IZR (2 * A) * IZR R + IZR s)%R
        as Hdm' by (rewrite <- mult_IZR, <- plus_IZR; f_equal; exact Hdm).
      rewrite plus_IZR, !mult_IZR in Hdm'.
      rewrite mult_IZR, Eq.
      apply (Rmult_eq_reg_l (2 * IZR A)); [|lra].
      replace (2 * IZR A * (100 * (IZR C / IZR A) + / 2))%R
        with (2 * (100 * IZR C) + IZR A)%R by (field; lra).
      rewrite Hdm'. field. lra. }
    assert (256 * / 9007199254740992 <= / IZR (2 * A)
            /\ / IZR (2 * A) * IZR (2 * A) = 1 /\ / IZR (2 * A) <= / 2)%R
      as (Hw & Hw1 & Hw2).
    { assert (2 <= IZR (2 * A) <= 35184372088832)%R as [HD1 HD2].
      { split; apply IZR_le; [lia|].
        change 35184372088832 with (2 * 2 ^ 44). lia. }
      split; [|split].
      - replace (256 * / 9007199254740992)%R
          with (/ 35184372088832)%R by lra.
        apply Rinv_le_contravar; lra.
      - apply Rinv_l. lra.
      - apply Rinv_le_contravar; lra. }
    remember (/ IZR (2 * A))%R as w eqn:Ew.
    destruct (Z.eq_dec s 0) as [Hs0|Hs0].
    + rewrite Hs0 in Hreal. rewrite Rmult_0_l in Hreal.
      assert (R - 2 < z < R + 1) as Hzr.
      { split; apply lt_IZR;
          rewrite ?minus_IZR, ?plus_IZR; lra. }
      destruct (Z.eq_dec z R) as [->|Hne]; [left; reflexivity|].
      right. split; [|lia].
      apply Z.eqb_eq. symmetry.
      apply (Z.mod_unique_pos _ _ (R - 1)); lia.
    + left.
      assert (w <= IZR s * w <= 1 - w)%R as Ht.
      { assert (1 <= IZR s <= IZR (2 * A) - 1)%R as [Hs1 Hs2].
        { split; [apply IZR_le; lia|].
          rewrite <- minus_IZR. apply IZR_le. lia. }
        assert (0 < w)%R by lra.
        split.
        - replace w with (1 * w)%R at 1 by ring.
          apply Rmult_le_compat_r; lra.
        - replace (1 - w)%R with ((IZR (2 * A) - 1) * w)%R
            by (rewrite Rmult_minus_distr_r, Rmult_comm, Hw1; ring).
          apply Rmult_le_compat_r; lra. }
      assert (R - 1 < z < R + 1) as Hzr.
      { split; apply lt_IZR;
          rewrite ?minus_IZR, ?plus_IZR; lra. }
      lia.
Qed.

(** Far beyond the bound the two roundings of the doubles can carry a
    fraction that is no tie across one: 35036070291409 correct answers in
    44070528668439 attempts, 79.4999999999999943 per cent, would show 80. *)
Lemma accuracy_far_off :
  accuracy (Z.to_nat 35036070291409) (Z.to_nat 44070528668439) = Some 80
  /\ round_half_up (100 * 35036070291409) 44070528668439 = 79
  /\ is_tie (100 * 35036070291409) 44070528668439 = false
  /\ 2 ^ 45 < 44070528668439.
Proof.
  split; [|repeat split; vm_compute; reflexivity].
  unfold accuracy.
  destruct (Z.to_nat 44070528668439) as [|n] eqn:E.
  - apply (f_equal Z.of_nat) in E.
    rewrite Z2Nat.id in E by (intros H; discriminate H). discriminate E.
  - rewrite <- E. unfold number.
    rewrite !Z2Nat.id by (intros H; discriminate H).
    vm_compute. reflexivity.
Qed.

End Binary64.

(** C9, as the page has it.  With no attempt the display is 100.
    Otherwise it is [Math.round] of the double [(correctCount / attempts) *
    100]: the quotient is rounded to a double first and the product again,
    so at a tie of [100 * correctCount / attempts] the display can be the
    lower neighbour.  For [correctCount <= attempts] and up to [2^44]
    attempts the display is the exact quotient rounded half up, or one
    less than it at a tie; [counters_ok] gives the first condition in any
    session, and [accuracy_far_off] shows what happens far beyond the
    second. *)
Theorem accuracy_display (correctCount attempts : nat) :
  (attempts = 0%nat -> accuracy correctCount attempts = Some 100%Z)
  /\ (attempts <> 0%nat ->
      accuracy correctCount attempts
      = Math_round
          (PrimFloat.mul
             (PrimFloat.div (number correctCount) (number attempts))
             (number 100)))
  /\ ((0 < attempts)%nat -> (Z.of_nat attempts <= 2 ^ 44)%Z ->
      (correctCount <= attempts)%nat ->
      exists shown : Z,
        accuracy correctCount attempts = Some shown
        /\ (shown
            = round_half_up (100 * Z.of_nat correctCount) (Z.of_nat attempts)
            \/ (is_tie (100 * Z.of_nat correctCount) (Z.of_nat attempts) = true
                /\ shown
                   = (round_half_up (100 * Z.of_nat correctCount)
                        (Z.of_nat attempts) - 1)%Z))).
Proof.
  split; [intros ->; reflexivity|].
  split; [destruct attempts; [congruence | reflexivity]|].
  apply accuracy_rounds.
Qed.

(** One correct answer out of three attempts shows 33. *)
Lemma accuracy_display_witness :
  exists shown : Z,
    accuracy 1 3 = Some shown
    /\ (shown = round_half_up (100 * Z.of_nat 1) (Z.of_nat 3)
        \/ (is_tie (100 * Z.of_nat 1) (Z.of_nat 3) = true
            /\ shown
               = (round_half_up (100 * Z.of_nat 1) (Z.of_nat 3) - 1)%Z)).
Proof.
  apply (accuracy_display 1 3); [lia | vm_compute; discriminate | lia].
Defined.

(** C9, as the specification has it, fails: after 23 correct answers in 40
    attempts the exact percentage is 57.5, which rounds to 58, and the page
    shows 57, because the double nearest to 23/40, times 100, is the double
    just below 57.5.  And after 1 correct answer in 8 attempts, 12.5, the
    page shows 13: no convention for ties makes the formula agree. *)
Lemma accuracy_tie_rounds_down :
  accuracy 23 40 = Some 57%Z
  /\ round_half_up (100 * 23) 40 = 58%Z
  /\ (100 * 23 * 2 = (2 * 57 + 1) * 40)%Z
  /\ accuracy 1 8 = Some 13%Z
  /\ (100 * 1 * 2 = (2 * 12 + 1) * 8)%Z.
Proof. repeat split; vm_compute; reflexivity. Qed.

(** ** [hintLine] *)

Lemma prompt_mentions_landlocked (nm : jsstring) :
  includes (lit "Is " ++ nm ++ lit " landlocked?") (lit "landlocked") = true.
Proof.
  change (lit " landlocked?") with (lit " " ++ lit "landlocked" ++ lit "?").
  rewrite (app_assoc nm), (app_assoc (lit "Is ")). apply includes_app.
Qed.

Lemma prompt_mentions_driving_side (nm : jsstring) :
  includes (lit "Which driving side is used in " ++ nm ++ lit "?")
    (lit "driving side") = true.
Proof.
  change (lit "Which driving side is used in ")
    with (lit "Which " ++ lit "driving side" ++ lit " is used in ").
  rewrite <- !app_assoc. apply includes_app.
Qed.

Section Hint.
Context `{RT : JsRuntime}.

Lemma hintLine_country_by_first_letter (c c' : Country)
    (q q' : option GeoQuestion) :
  charAt0 (name c) = charAt0 (name c') ->
  continent c = continent c' ->
  hintLine (Some c) StepCountry q = hintLine (Some c') StepCountry q'.
Proof. intros Hf Hc. unfold hintLine. rewrite Hf, Hc. reflexivity. Qed.

Lemma hintLine_capital_by_first_letter (c c' : Country)
    (q q' : option GeoQuestion) :
  charAt0 (capital c) = charAt0 (capital c') ->
  name c = name c' ->
  hintLine (Some c) StepCapital q = hintLine (Some c') StepCapital q'.
Proof. intros Hf Hn. unfold hintLine. rewrite Hf, Hn. reflexivity. Qed.

Lemma hintLine_capital_names_country (c : Country) (q : option GeoQuestion) :
  includes (hintLine (Some c) StepCapital q) (name c) = true.
Proof.
  unfold hintLine.
  rewrite (app_assoc (toUpperCase _)), (app_assoc (lit "Capital starts with ")).
  apply includes_app.
Qed.

Lemma hintLine_geo_qualitative (c : Country) (src : list nat) :
  (hintLine (Some c) StepGeo (Some (fst (buildGeoQuestion c src)))
   = lit "No coastline."
   \/ hintLine (Some c) StepGeo (Some (fst (buildGeoQuestion c src)))
      = lit "Touches the sea."
   \/ hintLine (Some c) StepGeo (Some (fst (buildGeoQuestion c src)))
      = lit "They drive on the left side."
   \/ hintLine (Some c) StepGeo (Some (fst (buildGeoQuestion c src)))
      = lit "They drive on the right side.")
  /\ includes (hintLine (Some c) StepGeo (Some (fst (buildGeoQuestion c src))))
       (Geo.answer (fst (buildGeoQuestion c src))) = false.
Proof.
  unfold buildGeoQuestion, bind.
  destruct (shuffle [lit "Yes"; lit "No"] src) as [yesNo src1].
  destruct (shuffle [lit "Left"; lit "Right"] src1) as [leftRight src2].
  destruct (randomBelow 2 src2) as [k src3].
  unfold ret, fst, hintLine.
  destruct k as [|k]; cbn [Geo.prompt Geo.answer].
  - rewrite prompt_mentions_landlocked.
    destruct (isLandlocked c); split; auto.
  - destruct (includes _ (lit "landlocked")).
    + destruct (isLandlocked c), (driveDirection c); split; auto.
    + rewrite prompt_mentions_driving_side.
      destruct (driveDirection c); split; auto.
Qed.

End Hint.

(** C7, as the page has it.  For the Country step the hint is the first
    letter of the name and the continent, and depends on the name through
    its first character only.  For the Capital step it is the first letter
    of the capital followed by the name of the country, which it contains;
    it depends on the capital through its first character only.  For the
    Geo step, with the question built from the current record, it is one of
    four fixed phrases and does not contain the answer of the question. *)
Theorem hintLine_clues `{RT : JsRuntime} (c : Country) :
  (forall q,
      hintLine (Some c) StepCountry q
      = lit "Country starts with " ++ toUpperCase (charAt0 (name c))
        ++ lit " and sits in " ++ continent c ++ lit "."
      /\ hintLine (Some c) StepCapital q
         = lit "Capital starts with " ++ toUpperCase (charAt0 (capital c))
           ++ lit " for " ++ name c ++ lit ".")
  /\ (forall c' q q',
        charAt0 (name c) = charAt0 (name c') ->
        continent c = continent c' ->
        hintLine (Some c) StepCountry q = hintLine (Some c') StepCountry q')
  /\ (forall c' q q',
        charAt0 (capital c) = charAt0 (capital c') ->
        name c = name c' ->
        hintLine (Some c) StepCapital q = hintLine (Some c') StepCapital q')
  /\ (forall q, includes (hintLine (Some c) StepCapital q) (name c) = true)
  /\ (forall src,
        (hintLine (Some c) StepGeo (Some (fst (buildGeoQuestion c src)))
         = lit "No coastline."
         \/ hintLine (Some c) StepGeo (Some (fst (buildGeoQuestion c src)))
            = lit "Touches the sea."
         \/ hintLine (Some c) StepGeo (Some (fst (buildGeoQuestion c src)))
            = lit "They drive on the left side."
         \/ hintLine (Some c) StepGeo (Some (fst (buildGeoQuestion c src)))
            = lit "They drive on the right side.")
        /\ includes
             (hintLine (Some c) StepGeo (Some (fst (buildGeoQuestion c src))))
             (Geo.answer (fst (buildGeoQuestion c src))) = false).
Proof.
  split; [intros q; split; reflexivity|].
  split; [intros c' q q'; apply hintLine_country_by_first_letter|].
  split; [intros c' q q'; apply hintLine_capital_by_first_letter|].
  split; [apply hintLine_capital_names_country|].
  apply hintLine_geo_qualitative.
Qed.

(** France and Finland, both in Europe, get the same hint for the Country
    step. *)
Lemma hintLine_clues_witness :
  @hintLine latin1Runtime (Some france) StepCountry None
  = @hintLine latin1Runtime (Some finland) StepCountry None.
Proof.
  destruct (@hintLine_clues latin1Runtime france) as (_ & Hsame & _).
  apply (Hsame finland None None); reflexivity.
Defined.

(** C7, as the specification has it, fails: the capital of Singapore is
    Singapore, and the hint of the Capital step names the country. *)
Lemma hintLine_names_capital :
  @hintLine latin1Runtime (Some singapore) StepCapital None
  = lit "Capital starts with S for Singapore."
  /\ capital singapore = lit "Singapore"
  /\ includes (@hintLine latin1Runtime (Some singapore) StepCapital None)
       (capital singapore) = true
  /\ @buildCountry latin1Runtime singaporeDetail = Some singapore.
Proof. repeat split; vm_compute; reflexivity. Qed.

(** ** [driveDirection] *)

Section Drive.
Context `{RT : JsRuntime}.

Lemma buildCountry_coded (d : Detail.t) (n : jsstring) :
  isoNumeric (Some d) = Some n ->
  exists r, buildCountry (Some d) = Some r
    /\ driveDirection r
       = (if bool_decide (Detail.drive_direction d = Some (lit "left"))
          then DriveLeft else DriveRight).
Proof.
  intros Hn. unfold buildCountry. rewrite Hn.
  eexists. split; reflexivity.
Qed.

Lemma buildCountries_keeps (l : list (option Detail.t)) (detail : option Detail.t)
    (r : Country) :
  detail ∈ l -> buildCountry detail = Some r -> r ∈ buildCountries l.
Proof.
  intros Hin Hr. unfold buildCountries. apply list_elem_of_omap.
  exists detail. split; assumption.
Qed.

Lemma buildGeoQuestion_drive (r : Country) (src : list nat) :
  Geo.prompt (fst (buildGeoQuestion r src))
  = lit "Is " ++ name r ++ lit " landlocked?"
  \/ (Geo.prompt (fst (buildGeoQuestion r src))
      = lit "Which driving side is used in " ++ name r ++ lit "?"
      /\ Geo.answer (fst (buildGeoQuestion r src))
         = match driveDirection r with
           | DriveLeft => lit "Left"
           | DriveRight => lit "Right"
           end).
Proof.
  unfold buildGeoQuestion, bind.
  destruct (shuffle [lit "Yes"; lit "No"] src) as [yesNo src1].
  destruct (shuffle [lit "Left"; lit "Right"] src1) as [leftRight src2].
  destruct (randomBelow 2 src2) as [[|k] src3]; unfold ret, fst; auto.
Qed.

Lemma buildGeoQuestion_drive_drawn (r : Country) :
  Geo.prompt (fst (buildGeoQuestion r [0; 0; 1]%nat))
  = lit "Which driving side is used in " ++ name r ++ lit "?".
Proof. reflexivity. Qed.

End Drive.

(** C10. An entry with an ISO numeric code is kept, and the record built
    from it drives on the left exactly when [drive_direction] is the string
    left; with any other value, or none, it drives on the right.  The
    drive-side question on a record whose [drive_direction] was absent has
    the answer Right, and some draw asks it. *)
Theorem buildCountry_driveDirection `{RT : JsRuntime} (d : Detail.t)
    (n : jsstring) :
  isoNumeric (Some d) = Some n ->
  exists r : Country,
    buildCountry (Some d) = Some r
    /\ (forall l, Some d ∈ l -> r ∈ buildCountries l)
    /\ (driveDirection r = DriveLeft
        <-> Detail.drive_direction d = Some (lit "left"))
    /\ (driveDirection r = DriveRight
        <-> Detail.drive_direction d <> Some (lit "left"))
    /\ (Detail.drive_direction d = None ->
        driveDirection r = DriveRight
        /\ (forall src,
              Geo.prompt (fst (buildGeoQuestion r src))
              = lit "Is " ++ name r ++ lit " landlocked?"
              \/ (Geo.prompt (fst (buildGeoQuestion r src))
                  = lit "Which driving side is used in " ++ name r ++ lit "?"
                  /\ Geo.answer (fst (buildGeoQuestion r src)) = lit "Right"))
        /\ Geo.prompt (fst (buildGeoQuestion r [0; 0; 1]%nat))
           = lit "Which driving side is used in " ++ name r ++ lit "?"
        /\ Geo.answer (fst (buildGeoQuestion r [0; 0; 1]%nat)) = lit "Right").
Proof.
  intros Hn. destruct (buildCountry_coded d n Hn) as (r & Hr & Hd).
  exists r. split; [exact Hr|].
  split; [intros l Hin; apply (buildCountries_keeps l (Some d) r Hin Hr)|].
  assert (driveDirection r = DriveLeft
          <-> Detail.drive_direction d = Some (lit "left")) as Hleft.
  { rewrite Hd. case_bool_decide; split; congruence. }
  split; [exact Hleft|].
  assert (driveDirection r = DriveRight
          <-> Detail.drive_direction d <> Some (lit "left")) as Hright.
  { rewrite <- Hleft. destruct (driveDirection r); split; congruence. }
  split; [exact Hright|].
  intros Hnone.
  assert (driveDirection r = DriveRight) as Hr'.
  { apply Hright. rewrite Hnone. discriminate. }
  split; [exact Hr'|]. split.
  - intros src. destruct (buildGeoQuestion_drive r src) as [Hp|[Hp Ha]];
      [left; exact Hp|right]. rewrite Hr' in Ha. split; assumption.
  - destruct (buildGeoQuestion_drive r [0; 0; 1]%nat) as [Hp|[Hp Ha]].
    + rewrite buildGeoQuestion_drive_drawn in Hp.
      apply (f_equal (fun s => List.hd 0 s)) in Hp. discriminate.
    + rewrite Hr' in Ha. split; assumption.
Qed.

(** Chad, whose entry has no [drive_direction]. *)
Lemma buildCountry_driveDirection_witness :
  exists r : Country,
    @buildCountry latin1Runtime chadDetail = Some r
    /\ driveDirection r = DriveRight
    /\ name r = lit "Chad"
    /\ Geo.answer (fst (buildGeoQuestion r [0; 0; 1]%nat)) = lit "Right".
Proof.
  destruct (@buildCountry_driveDirection latin1Runtime chadEntry (lit "148"))
    as (r & Hr & _ & _ & _ & Hnone); [reflexivity|].
  destruct Hnone as (Hright & _ & _ & Hanswer); [reflexivity|].
  exists r. repeat split; try assumption.
  vm_compute in Hr. injection Hr as <-. reflexivity.
Defined.

(** * More properties *)

(** ** [titleize] *)

Lemma split_on_nonempty (sep : N) (s : jsstring) : split_on sep s <> [].
Proof.
  destruct s as [|c s]; simpl; [discriminate|].
  destruct (N.eqb c sep); [discriminate|].
  destruct (split_on sep s); discriminate.
Qed.

Lemma split_on_app (sep : N) (a b : jsstring) :
  split_on sep (a ++ sep :: b) = split_on sep a ++ split_on sep b.
Proof.
  induction a as [|c a IH]; simpl.
  - rewrite N.eqb_refl. reflexivity.
  - rewrite IH. destruct (N.eqb c sep); [reflexivity|].
    pose proof (split_on_nonempty sep a) as Hne.
    destruct (split_on sep a); [congruence | reflexivity].
Qed.

Lemma split_on_word (sep : N) (w : jsstring) :
  sep ∉ w -> split_on sep w = [w].
Proof.
  induction w as [|c w IH]; intros Hw; [reflexivity|].
  apply not_elem_of_cons in Hw as [Hc Hw]. simpl.
  destruct (N.eqb_spec c sep) as [->|_]; [congruence|].
  rewrite (IH Hw). reflexivity.
Qed.

Lemma join_app (sep : jsstring) (l1 l2 : list jsstring) :
  l1 <> [] -> l2 <> [] ->
  join sep (l1 ++ l2) = join sep l1 ++ sep ++ join sep l2.
Proof.
  intros H1 H2. induction l1 as [|p l1 IH]; [congruence|].
  destruct l1 as [|p' l1].
  - simpl. destruct l2; [congruence | reflexivity].
  - change (join sep ((p :: p' :: l1) ++ l2))
      with (p ++ sep ++ join sep ((p' :: l1) ++ l2)).
    rewrite IH by discriminate.
    change (join sep (p :: p' :: l1)) with (p ++ sep ++ join sep (p' :: l1)).
    rewrite <- !app_assoc. reflexivity.
Qed.

(** X1. [titleize] works word by word: it distributes over a space, on a
    word of at most three code units it is [toUpperCase] of the word, and
    on a longer word it upper-cases the first code unit and keeps the rest
    as it is written. *)
Theorem titleize_word_by_word `{RT : JsRuntime} :
  (forall a b : jsstring,
      titleize (a ++ [32] ++ b) = titleize a ++ [32] ++ titleize b)
  /\ (forall w : jsstring,
        32 ∉ w -> (length w <= 3)%nat -> titleize w = toUpperCase w)
  /\ (forall (c : N) (w : jsstring),
        32 ∉ c :: w -> (3 <= length w)%nat ->
        titleize (c :: w) = toUpperCase [c] ++ w).
Proof.
  split; [|split].
  - intros a b. unfold titleize. simpl app.
    rewrite split_on_app, List.map_app, join_app.
    + reflexivity.
    + intros H. apply List.map_eq_nil in H.
      exact (split_on_nonempty 32 a H).
    + intros H. apply List.map_eq_nil in H.
      exact (split_on_nonempty 32 b H).
  - intros w Hw Hlen. unfold titleize. rewrite (split_on_word 32 w Hw).
    simpl. unfold titleize_part.
    destruct (Nat.ltb_spec 3 (length w)); [lia | reflexivity].
  - intros c w Hw Hlen. unfold titleize.
    rewrite (split_on_word 32 (c :: w) Hw).
    simpl. unfold titleize_part.
    destruct (Nat.ltb_spec 3 (length (c :: w))) as [_|Hle];
      [reflexivity | simpl in Hle; lia].
Qed.

(** The two words of new zealand, and the short word usa. *)
Lemma titleize_word_by_word_witness :
  @titleize latin1Runtime (lit "new" ++ [32] ++ lit "zealand")
  = @titleize latin1Runtime (lit "new") ++ [32]
    ++ @titleize latin1Runtime (lit "zealand")
  /\ @titleize latin1Runtime (lit "usa")
     = @toUpperCase latin1Runtime (lit "usa")
  /\ @titleize latin1Runtime (lit "zealand")
     = @toUpperCase latin1Runtime (lit "z") ++ lit "ealand".
Proof.
  destruct (@titleize_word_by_word latin1Runtime) as (Happ & Hshort & Hlong).
  split; [apply Happ|]. split.
  - apply Hshort; [|simpl; lia]. apply (bool_decide_unpack _). vm_compute. exact I.
  - apply (Hlong 122 (lit "ealand")); [|simpl; lia].
    apply (bool_decide_unpack _). vm_compute. exact I.
Defined.

(** ** [normalizeAnswer] on normalized text *)

Lemma filter_all {A} (P : A -> bool) (l : list A) :
  Forall (fun x => P x = true) l -> List.filter P l = l.
Proof.
  induction 1 as [|x l Hx _ IH]; simpl; [reflexivity|].
  rewrite Hx, IH. reflexivity.
Qed.

Lemma alnum_not_combining (c : N) :
  is_lower_alnum c = true -> negb (is_combining_mark c) = true.
Proof.
  unfold is_lower_alnum, is_combining_mark.
  rewrite orb_true_iff, !andb_true_iff, !N.leb_le. intros H.
  destruct (N.leb_spec 0x300 c); [lia | reflexivity].
Qed.

Lemma latin1_fixes_alnum_unit (c : N) :
  is_lower_alnum c = true ->
  Latin1.nfd_unit c = [c] /\ Latin1.lower_unit c = [c].
Proof.
  unfold is_lower_alnum.
  rewrite orb_true_iff, !andb_true_iff, !N.leb_le. intros H.
  unfold Latin1.nfd_unit, Latin1.lower_unit.
  rewrite !between_false by lia. split; reflexivity.
Qed.

Lemma latin1_fixes_alnum (s : jsstring) :
  Forall (fun c => is_lower_alnum c = true) s ->
  @normalizeNFD latin1Runtime s = s /\ @toLowerCase latin1Runtime s = s.
Proof.
  simpl. induction 1 as [|c s Hc _ [IHn IHl]]; [split; reflexivity|].
  destruct (latin1_fixes_alnum_unit c Hc) as [Hn Hl].
  simpl. rewrite Hn, Hl, IHn, IHl. split; reflexivity.
Qed.

(** X2. When the engine's [normalize] and [toLowerCase] leave strings of
    [a-z0-9] as they are, [normalizeAnswer] leaves them too, and
    normalizing twice is normalizing once. *)
Theorem normalizeAnswer_idempotent `{RT : JsRuntime} :
  (forall s, Forall (fun c => is_lower_alnum c = true) s ->
             normalizeNFD s = s) ->
  (forall s, Forall (fun c => is_lower_alnum c = true) s ->
             toLowerCase s = s) ->
  (forall s, Forall (fun c => is_lower_alnum c = true) s ->
             normalizeAnswer s = s)
  /\ (forall s, normalizeAnswer (normalizeAnswer s) = normalizeAnswer s).
Proof.
  intros Hnfd Hlow.
  assert (forall s, Forall (fun c => is_lower_alnum c = true) s ->
                    normalizeAnswer s = s) as Hfix.
  { intros s Hs. unfold normalizeAnswer. rewrite (Hnfd s Hs).
    rewrite (filter_all (fun c => negb (is_combining_mark c))).
    - rewrite (Hlow s Hs). apply filter_all, Hs.
    - eapply Forall_impl; [exact Hs|]. apply alnum_not_combining. }
  split; [exact Hfix|].
  intros s. apply Hfix, normalizeAnswer_alnum.
Qed.

(** The Latin-1 runtime leaves [a-z0-9] alone; Sao Paulo twice. *)
Lemma normalizeAnswer_idempotent_witness :
  @normalizeAnswer latin1Runtime (@normalizeAnswer latin1Runtime SaoPaulo)
  = @normalizeAnswer latin1Runtime SaoPaulo.
Proof.
  apply (@normalizeAnswer_idempotent latin1Runtime).
  - intros s Hs. apply (latin1_fixes_alnum s Hs).
  - intros s Hs. apply (latin1_fixes_alnum s Hs).
Defined.


(** ** The Capital and Geo steps of [handleSubmit] *)

(** X3. In the Capital step, with a current country and an input whose
    normalized form is not empty, [handleSubmit] counts an attempt; when
    the normalized input is the normalized capital it moves to the Geo
    step, adds one to [correctCount] and [streak] and clears the input,
    and otherwise it stays in the Capital step with [streak] 0, the input
    kept.  In the Geo step it counts the attempt and changes nothing
    else. *)
Theorem handleSubmit_capital `{RT : JsRuntime} (h : Hooks) (c : Country) :
  currentCountry h = Some c ->
  normalizeAnswer (answer h) <> [] ->
  (step h = StepCapital ->
   normalizeAnswer (answer h) = normalizeAnswer (capital c) ->
   handleSubmit h
   = setAnswer []
       (setStep StepGeo
          (setFeedback (lit "On point! Keep it going.")
             (setStreak S (setCorrectCount S (setAttempts S h))))))
  /\ (step h = StepCapital ->
      normalizeAnswer (answer h) <> normalizeAnswer (capital c) ->
      handleSubmit h
      = setStreak (fun _ => O)
          (setFeedback (lit "Close! Think of the capital city.")
             (setAttempts S h)))
  /\ (step h = StepGeo -> handleSubmit h = setAttempts S h).
Proof.
  intros Hc Hne. unfold handleSubmit. rewrite Hc.
  destruct (normalizeAnswer (answer h)) as [|u cleaned] eqn:Hin;
    [congruence|]. simpl negb. cbv iota.
  split; [|split].
  - intros -> Heq. rewrite (proj2 (str_eqb_eq _ _)) by congruence.
    reflexivity.
  - intros -> Hneq. rewrite (proj2 (str_eqb_neq _ _)) by congruence.
    reflexivity.
  - intros ->. reflexivity.
Qed.

(** The answer paris for France, in the Capital step. *)
Lemma handleSubmit_capital_witness :
  @handleSubmit latin1Runtime
    (sessionAt [france] StepCapital (lit "paris") None)
  = setAnswer []
      (setStep StepGeo
         (setFeedback (lit "On point! Keep it going.")
            (setStreak S
               (setCorrectCount S
                  (setAttempts S
                     (sessionAt [france] StepCapital (lit "paris") None)))))).
Proof.
  apply (@handleSubmit_capital latin1Runtime
           (sessionAt [france] StepCapital (lit "paris") None) france).
  - reflexivity.
  - vm_compute. discriminate.
  - reflexivity.
  - vm_compute. reflexivity.
Defined.

(** ** The questions of [buildGeoQuestion] *)

Lemma shuffle_pair {A} (a b : A) (src : list nat) :
  fst (shuffle [a; b] src) = [a; b] \/ fst (shuffle [a; b] src) = [b; a].
Proof.
  unfold shuffle. simpl. unfold bind.
  destruct (randomBelow 2 src) as [j src'].
  destruct j as [|[|j]]; simpl; auto.
Qed.

Lemma buildGeoQuestion_cases (c : Country) (src : list nat) :
  ((Geo.prompt (fst (buildGeoQuestion c src))
    = lit "Is " ++ name c ++ lit " landlocked?"
    /\ (Geo.options (fst (buildGeoQuestion c src)) = [lit "Yes"; lit "No"]
        \/ Geo.options (fst (buildGeoQuestion c src)) = [lit "No"; lit "Yes"])
    /\ Geo.answer (fst (buildGeoQuestion c src))
       = (if isLandlocked c then lit "Yes" else lit "No"))
   \/ (Geo.prompt (fst (buildGeoQuestion c src))
       = lit "Which driving side is used in " ++ name c ++ lit "?"
       /\ (Geo.options (fst (buildGeoQuestion c src))
           = [lit "Left"; lit "Right"]
           \/ Geo.options (fst (buildGeoQuestion c src))
              = [lit "Right"; lit "Left"])
       /\ Geo.answer (fst (buildGeoQuestion c src))
          = match driveDirection c with
            | DriveLeft => lit "Left"
            | DriveRight => lit "Right"
            end))
  /\ Geo.answer (fst (buildGeoQuestion c src))
     ∈ Geo.options (fst (buildGeoQuestion c src))
  /\ length (Geo.options (fst (buildGeoQuestion c src))) = 2%nat.
Proof.
  unfold buildGeoQuestion, bind.
  pose proof (shuffle_pair (lit "Yes") (lit "No") src) as Hyn.
  destruct (shuffle [lit "Yes"; lit "No"] src) as [yesNo src1].
  pose proof (shuffle_pair (lit "Left") (lit "Right") src1) as Hlr.
  destruct (shuffle [lit "Left"; lit "Right"] src1) as [leftRight src2].
  destruct (randomBelow 2 src2) as [[|k] src3];
    unfold ret, fst in *; cbn [Geo.prompt Geo.answer Geo.options].
  - split; [left; auto|].
    destruct Hyn as [-> | ->], (isLandlocked c);
      split; try reflexivity;
      apply (bool_decide_unpack _); vm_compute; exact I.
  - split; [right; auto|].
    destruct Hlr as [-> | ->], (driveDirection c);
      split; try reflexivity;
      apply (bool_decide_unpack _); vm_compute; exact I.
Qed.


(** X4. Whatever is drawn, the question [buildGeoQuestion] returns for a
    record is one of two: the landlocked question, whose options are Yes
    and No in some order and whose answer is Yes exactly for a landlocked
    record, or the driving-side question, whose options are Left and Right
    in some order and whose answer is Left exactly for a record that drives
    on the left.  Its answer is always one of its two options. *)
Theorem buildGeoQuestion_well_formed (c : Country) (src : list nat) :
  ((Geo.prompt (fst (buildGeoQuestion c src))
    = lit "Is " ++ name c ++ lit " landlocked?"
    /\ (Geo.options (fst (buildGeoQuestion c src)) = [lit "Yes"; lit "No"]
        \/ Geo.options (fst (buildGeoQuestion c src)) = [lit "No"; lit "Yes"])
    /\ Geo.answer (fst (buildGeoQuestion c src))
       = (if isLandlocked c then lit "Yes" else lit "No"))
   \/ (Geo.prompt (fst (buildGeoQuestion c src))
       = lit "Which driving side is used in " ++ name c ++ lit "?"
       /\ (Geo.options (fst (buildGeoQuestion c src))
           = [lit "Left"; lit "Right"]
           \/ Geo.options (fst (buildGeoQuestion c src))
              = [lit "Right"; lit "Left"])
       /\ Geo.answer (fst (buildGeoQuestion c src))
          = match driveDirection c with
            | DriveLeft => lit "Left"
            | DriveRight => lit "Right"
            end))
  /\ Geo.answer (fst (buildGeoQuestion c src))
     ∈ Geo.options (fst (buildGeoQuestion c src))
  /\ length (Geo.options (fst (buildGeoQuestion c src))) = 2%nat.
Proof. apply buildGeoQuestion_cases. Qed.

(** The question on Chad drawn by 1, 0 and 1 asks for the driving side. *)
Lemma buildGeoQuestion_well_formed_witness :
  Geo.answer (fst (buildGeoQuestion chad [1; 0; 1]%nat))
  ∈ Geo.options (fst (buildGeoQuestion chad [1; 0; 1]%nat))
  /\ length (Geo.options (fst (buildGeoQuestion chad [1; 0; 1]%nat))) = 2%nat.
Proof.
  apply (buildGeoQuestion_well_formed chad [1; 0; 1]%nat).
Defined.

Section OneOption.
Context `{RT : JsRuntime}.

Lemma pair_choice (a b opt ans : jsstring) (l : list jsstring) :
  normalizeAnswer a <> normalizeAnswer b ->
  l = [a; b] \/ l = [b; a] ->
  ans = a \/ ans = b ->
  opt ∈ l ->
  normalizeAnswer opt = normalizeAnswer ans <-> opt = ans.
Proof.
  intros Hab Hl Hans Hopt.
  assert (opt = a \/ opt = b) as Ho.
  { destruct Hl as [-> | ->]; revert Hopt;
      rewrite !elem_of_cons, elem_of_nil; tauto. }
  split; [|intros ->; reflexivity].
  destruct Ho as [-> | ->], Hans as [-> | ->]; congruence.
Qed.

End OneOption.

(** X5. On an engine for which Yes and No, and Left and Right, have
    different normalized forms, exactly one of the two options of a
    question of [buildGeoQuestion] is judged correct: [handleGeoChoice]
    adds one to [correctCount] for an option of the question exactly when
    the option is its answer. *)
Theorem handleGeoChoice_one_correct_option `{RT : JsRuntime} (h : Hooks)
    (c : Country) (src : list nat) (opt : jsstring) :
  normalizeAnswer (lit "Yes") <> normalizeAnswer (lit "No") ->
  normalizeAnswer (lit "Left") <> normalizeAnswer (lit "Right") ->
  geoQuestion h = Some (fst (buildGeoQuestion c src)) ->
  opt ∈ Geo.options (fst (buildGeoQuestion c src)) ->
  correctCount (handleGeoChoice opt h) = S (correctCount h)
  <-> opt = Geo.answer (fst (buildGeoQuestion c src)).
Proof.
  intros Hyn Hlr Hq Hopt.
  rewrite (handleGeoChoice_judged h _ opt Hq).
  destruct (buildGeoQuestion_cases c src)
    as [[(_ & Hopts & Hans) | (_ & Hopts & Hans)] _].
  - apply (pair_choice (lit "Yes") (lit "No") opt _ _ Hyn Hopts);
      [rewrite Hans; destruct (isLandlocked c); auto | exact Hopt].
  - apply (pair_choice (lit "Left") (lit "Right") opt _ _ Hlr Hopts);
      [rewrite Hans; destruct (driveDirection c); auto | exact Hopt].
Qed.

(** The question on France drawn by three zeros, and the option Yes. *)
Lemma handleGeoChoice_one_correct_option_witness :
  correctCount
    (@handleGeoChoice latin1Runtime (lit "Yes")
       (sessionAt [france] StepGeo []
          (Some (fst (buildGeoQuestion france [0; 0; 0]%nat)))))
  = 1%nat
  <-> lit "Yes" = Geo.answer (fst (buildGeoQuestion france [0; 0; 0]%nat)).
Proof.
  apply (@handleGeoChoice_one_correct_option latin1Runtime
           (sessionAt [france] StepGeo []
              (Some (fst (buildGeoQuestion france [0; 0; 0]%nat))))
           france [0; 0; 0]%nat (lit "Yes")).
  - vm_compute. discriminate.
  - vm_compute. discriminate.
  - reflexivity.
  - apply (bool_decide_unpack _). vm_compute. exact I.
Defined.

(** ** What holds in every state of a session *)

Section Reachable.
Context `{RT : JsRuntime}.

Lemma currentRef_None (h : Hooks) :
  currentRef h = None <-> currentCountry h = None.
Proof.
  unfold currentRef, currentCountry.
  destruct (Nat.ltb_spec (levelIndex h) (length (countries h))) as [Hlt|Hge].
  - split; [discriminate|]. intros Hn.
    apply lookup_ge_None in Hn. lia.
  - split; [|reflexivity]. intros _. apply lookup_ge_None. exact Hge.
Qed.

Lemma currentRef_Some (h : Hooks) (p i : nat) :
  currentRef h = Some (p, i) -> p = poolId h /\ i = levelIndex h.
Proof.
  unfold currentRef. destruct (_ <? _)%nat; [|discriminate].
  intros [= <- <-]. split; reflexivity.
Qed.

(** The same object is the same country. *)
Lemma currentRef_currentCountry (h h' : Hooks) :
  currentRef h' = currentRef h ->
  countries h' = countries h \/ poolId h' <> poolId h ->
  currentCountry h' = currentCountry h.
Proof.
  intros Href Hpool.
  destruct (currentRef h) as [[p i]|] eqn:Hr.
  - apply currentRef_Some in Hr as [-> ->].
    apply currentRef_Some in Href as [Hp Hi].
    destruct Hpool as [Hc|Hne]; [|congruence].
    unfold currentCountry. rewrite Hc, Hi. reflexivity.
  - apply currentRef_None in Hr. apply currentRef_None in Href. congruence.
Qed.

Lemma Restart_or_not (ev : Event) : ev = Restart \/ ev <> Restart.
Proof. destruct ev; auto; right; discriminate. Qed.

(** What a handler leaves alone. *)
Lemma handle_frame (detailList : list (option Detail.t)) (ev : Event)
    (h : Hooks) (src : list nat) :
  geoDeps (fst (handle detailList ev h src)) = geoDeps h
  /\ geoQuestion (fst (handle detailList ev h src)) = geoQuestion h
  /\ (ev <> Restart ->
      countries (fst (handle detailList ev h src)) = countries h
      /\ poolId (fst (handle detailList ev h src)) = poolId h)
  /\ (ev = Restart ->
      poolId (fst (handle detailList ev h src)) = S (poolId h)
      /\ countries (fst (handle detailList ev h src))
         = fst (buildPool detailList src)).
Proof.
  destruct ev; simpl.
  - repeat split; congruence.
  - unfold handleSubmit. destruct (currentCountry h) as [c|];
      [|repeat split; congruence].
    destruct (str_truthy _); simpl; [|repeat split; congruence].
    destruct (step h); repeat (destruct (str_eqb _ _)); simpl;
      repeat split; congruence.
  - unfold handleGeoChoice. destruct (geoQuestion h) as [q|] eqn:Hq;
      [|repeat split; congruence].
    destruct (str_eqb _ _); simpl; repeat split; congruence.
  - destruct (timers h) as [|f rest]; simpl; [repeat split; congruence|].
    destruct f; simpl; repeat split; congruence.
  - unfold restart, bind. destruct (buildPool detailList src) as [built src'].
    simpl. repeat split; congruence.
  - repeat split; congruence.
Qed.

Lemma computeGeoQuestion_fits (h : Hooks) (src : list nat) :
  question_fits (fst (computeGeoQuestion h src))
  /\ rendered (fst (computeGeoQuestion h src))
  /\ countries (fst (computeGeoQuestion h src)) = countries h
  /\ levelIndex (fst (computeGeoQuestion h src)) = levelIndex h.
Proof.
  unfold computeGeoQuestion, question_fits, rendered, currentCountry.
  destruct (countries h !! levelIndex h) as [c|] eqn:Hc.
  - unfold bind. destruct (buildGeoQuestion c src) as [q src'] eqn:Hq.
    simpl. rewrite Hc. repeat split. exists src. rewrite Hq. reflexivity.
  - simpl. rewrite Hc. repeat split.
Qed.

Lemma render_fits (h : Hooks) (src : list nat) :
  (currentRef h = geoDeps h -> question_fits h) ->
  question_fits (fst (render h src))
  /\ countries (fst (render h src)) = countries h
  /\ levelIndex (fst (render h src)) = levelIndex h.
Proof.
  intros Hkeep. unfold render. case_bool_decide as Hd.
  - simpl. auto.
  - destruct (computeGeoQuestion_fits h src) as (Hf & _ & Hc & Hl). auto.
Qed.

Lemma dispatch_fits (detailList : list (option Detail.t)) (ev : Event)
    (h : Hooks) (src : list nat) :
  rendered h -> question_fits h ->
  question_fits (fst (dispatch detailList ev h src)).
Proof.
  intros Hr Hf. unfold dispatch, bind.
  pose proof (handle_frame detailList ev h src) as (Hd & Hq & Hkeep & Hnew).
  destruct (handle detailList ev h src) as [h1 src1]. simpl in *.
  apply render_fits. intros Href.
  assert (currentCountry h1 = currentCountry h) as Hsame.
  { apply currentRef_currentCountry; [congruence|].
    destruct (Restart_or_not ev) as [He|He].
    - right. destruct (Hnew He) as [Hp _]. lia.
    - left. apply (Hkeep He). }
  unfold question_fits in *. rewrite Hsame, Hq. exact Hf.
Qed.

Lemma dispatch_countries (detailList : list (option Detail.t)) (ev : Event)
    (h : Hooks) (src : list nat) :
  countries (fst (dispatch detailList ev h src)) = countries h
  \/ countries (fst (dispatch detailList ev h src))
     = fst (buildPool detailList src).
Proof.
  unfold dispatch, bind.
  pose proof (handle_frame detailList ev h src) as (_ & _ & Hkeep & Hnew).
  destruct (handle detailList ev h src) as [h1 src1]. simpl in *.
  assert (countries (fst (render h1 src1)) = countries h1) as ->.
  { unfold render. case_bool_decide; [reflexivity|].
    apply computeGeoQuestion_fits. }
  destruct (Restart_or_not ev) as [He|He].
  - right. apply (Hnew He).
  - left. apply (Hkeep He).
Qed.

Lemma mount_fits (detailList : list (option Detail.t)) (src : list nat) :
  question_fits (fst (mount detailList src))
  /\ countries (fst (mount detailList src)) = fst (buildPool detailList src).
Proof.
  unfold mount, bind. destruct (buildPool detailList src) as [pool src'].
  match goal with |- context [computeGeoQuestion ?h0 _] =>
    destruct (computeGeoQuestion_fits h0 src') as (Hf & _ & Hc & _) end.
  split; [exact Hf | exact Hc].
Qed.

Lemma reachable_fits (detailList : list (option Detail.t)) (h : Hooks) :
  reachable detailList h -> rendered h /\ question_fits h.
Proof.
  induction 1 as [src|ev h src _ [IHr IHf]].
  - split; [apply mount_rendered | apply mount_fits].
  - split; [apply dispatch_rendered | apply dispatch_fits; assumption].
Qed.

Lemma reachable_pool (detailList : list (option Detail.t)) (h : Hooks) :
  reachable detailList h ->
  exists src, countries h = fst (buildPool detailList src).
Proof.
  induction 1 as [src|ev h src _ [src0 IH]].
  - exists src. apply mount_fits.
  - destruct (dispatch_countries detailList ev h src) as [-> | ->]; eauto.
Qed.

(** What an event can do to the streak. *)
Lemma handle_streak (detailList : list (option Detail.t)) (ev : Event)
    (h : Hooks) (src : list nat) :
  (streak (fst (handle detailList ev h src)) = streak h
   /\ correctCount (fst (handle detailList ev h src)) = correctCount h)
  \/ (streak (fst (handle detailList ev h src)) = S (streak h)
      /\ correctCount (fst (handle detailList ev h src))
         = S (correctCount h))
  \/ streak (fst (handle detailList ev h src)) = 0%nat.
Proof.
  destruct ev; simpl; auto.
  - unfold handleSubmit. destruct (currentCountry h) as [c|]; [|auto].
    destruct (str_truthy _); simpl; [|auto].
    destruct (step h); repeat (destruct (str_eqb _ _)); simpl; auto.
  - unfold handleGeoChoice. destruct (geoQuestion h) as [q|]; [|auto].
    destruct (str_eqb _ _); simpl; auto.
  - destruct (timers h) as [|f rest]; simpl; [auto|].
    destruct f; simpl; auto.
  - unfold restart, bind. destruct (buildPool detailList src) as [built src'].
    simpl. auto.
Qed.

Lemma render_streak (h : Hooks) (src : list nat) :
  streak (fst (render h src)) = streak h.
Proof.
  unfold render. destruct (bool_decide _); [reflexivity|].
  unfold computeGeoQuestion. destruct (currentCountry h) as [c|].
  - unfold bind. destruct (buildGeoQuestion c src). reflexivity.
  - reflexivity.
Qed.

Lemma reachable_streak (detailList : list (option Detail.t)) (h : Hooks) :
  reachable detailList h ->
  (streak h <= correctCount h)%nat /\ (correctCount h <= attempts h)%nat.
Proof.
  induction 1 as [src|ev h src _ [IHs IHc]].
  - destruct (mount_counters detailList src) as [-> ->].
    unfold mount, bind. destruct (buildPool detailList src) as [pool src'].
    unfold computeGeoQuestion, currentCountry. simpl.
    destruct (pool !! 0%nat) as [c|]; [|simpl; lia].
    unfold bind. destruct (buildGeoQuestion c src'). simpl. lia.
  - pose proof (dispatch_counted detailList ev h src) as Hc.
    unfold counted in Hc. split; [|lia].
    unfold dispatch, bind in *.
    pose proof (handle_streak detailList ev h src) as Hs.
    destruct (handle detailList ev h src) as [h1 src1]. simpl in *.
    rewrite render_streak.
    destruct (render_counters h1 src1) as [_ Hk]. rewrite Hk. lia.
Qed.

End Reachable.

(** X6. In every state of a session the pool is one [buildPool] returned
    for the data set: it holds [min(100, N)] records for [N] loaded ones,
    so [totalLevels] is its length, and the session is finished exactly
    when the pool is not empty and no country is current. *)
Theorem reachable_pool_size `{RT : JsRuntime}
    (detailList : list (option Detail.t)) (h : Hooks) :
  reachable detailList h ->
  length (countries h) = Nat.min 100 (length (buildCountries detailList))
  /\ totalLevels h = length (countries h)
  /\ (finished h = true <-> countries h <> [] /\ currentCountry h = None).
Proof.
  intros Hr. destruct (reachable_pool detailList h Hr) as [src Hp].
  assert (length (countries h)
          = Nat.min 100 (length (buildCountries detailList))) as Hlen.
  { rewrite Hp. apply buildPool_length. }
  assert (totalLevels h = length (countries h)) as Htot.
  { unfold totalLevels, TOTAL_LEVELS. lia. }
  split; [exact Hlen|]. split; [exact Htot|].
  unfold finished. rewrite Htot, andb_true_iff, Nat.ltb_lt, Nat.leb_le.
  unfold currentCountry. rewrite lookup_ge_None.
  destruct (countries h); simpl; split; intros [H1 H2];
    split; try lia; congruence.
Qed.

(** The first render on the sample data: three records. *)
Lemma reachable_pool_size_witness :
  length (countries (fst (@mount latin1Runtime sampleDetails [])))
  = Nat.min 100 (length (@buildCountries latin1Runtime sampleDetails))
  /\ totalLevels (fst (@mount latin1Runtime sampleDetails []))
     = length (countries (fst (@mount latin1Runtime sampleDetails [])))
  /\ (finished (fst (@mount latin1Runtime sampleDetails [])) = true
      <-> countries (fst (@mount latin1Runtime sampleDetails [])) <> []
          /\ currentCountry (fst (@mount latin1Runtime sampleDetails []))
             = None).
Proof.
  apply (@reachable_pool_size latin1Runtime sampleDetails).
  apply reachable_mount.
Defined.

(** X7. In every state of a session the memoized question is up to date
    and belongs to the current country: there is none when no country is
    current, and otherwise it is a question [buildGeoQuestion] returns for
    the current country, so its answer is one of its two options. *)
Theorem reachable_question_fits `{RT : JsRuntime}
    (detailList : list (option Detail.t)) (h : Hooks) :
  reachable detailList h ->
  rendered h
  /\ (currentCountry h = None -> geoQuestion h = None)
  /\ (forall c, currentCountry h = Some c ->
        exists q src,
          geoQuestion h = Some q
          /\ q = fst (buildGeoQuestion c src)
          /\ Geo.answer q ∈ Geo.options q
          /\ length (Geo.options q) = 2%nat).
Proof.
  intros Hr. destruct (reachable_fits detailList h Hr) as [Hren Hfit].
  split; [exact Hren|]. unfold question_fits in Hfit. split.
  - intros Hc. rewrite Hc in Hfit. exact Hfit.
  - intros c Hc. rewrite Hc in Hfit. destruct Hfit as [src Hq].
    exists (fst (buildGeoQuestion c src)), src.
    split; [exact Hq|]. split; [reflexivity|].
    apply buildGeoQuestion_cases.
Qed.

(** After a wrong answer on the first level of the sample data. *)
Lemma reachable_question_fits_witness :
  rendered
    (fst (@dispatch latin1Runtime sampleDetails Submit
            (fst (@mount latin1Runtime sampleDetails [])) [])).
Proof.
  apply (@reachable_question_fits latin1Runtime sampleDetails).
  apply reachable_dispatch, reachable_mount.
Defined.

(** X8. In every state of a session [streak <= correctCount <= attempts]:
    the streak grows only together with [correctCount], and otherwise
    stays or falls to 0. *)
Theorem reachable_streak_bounded `{RT : JsRuntime}
    (detailList : list (option Detail.t)) (h : Hooks) :
  reachable detailList h ->
  (streak h <= correctCount h)%nat /\ (correctCount h <= attempts h)%nat.
Proof. apply reachable_streak. Qed.

(** After a submission on the first level of the sample data. *)
Lemma reachable_streak_bounded_witness :
  (streak (fst (@dispatch latin1Runtime sampleDetails Submit
                  (fst (@mount latin1Runtime sampleDetails [])) [])) 
   <= correctCount
        (fst (@dispatch latin1Runtime sampleDetails Submit
                (fst (@mount latin1Runtime sampleDetails [])) [])))%nat
  /\ (correctCount
        (fst (@dispatch latin1Runtime sampleDetails Submit
                (fst (@mount latin1Runtime sampleDetails [])) []))
      <= attempts
           (fst (@dispatch latin1Runtime sampleDetails Submit
                   (fst (@mount latin1Runtime sampleDetails [])) [])))%nat.
Proof.
  apply (@reachable_streak_bounded latin1Runtime sampleDetails).
  apply reachable_dispatch, reachable_mount.
Defined.

(** X9. In a state of a session without a current country (the pool is
    used up, or empty), a submission and a choice change nothing and draw
    nothing. *)
Theorem dispatch_without_country `{RT : JsRuntime}
    (detailList : list (option Detail.t)) (h : Hooks) (opt : jsstring)
    (src : list nat) :
  reachable detailList h ->
  currentCountry h = None ->
  dispatch detailList Submit h src = (h, src)
  /\ dispatch detailList (ChooseOption opt) h src = (h, src).
Proof.
  intros Hr Hc. destruct (reachable_fits detailList h Hr) as [Hren Hfit].
  unfold question_fits in Hfit. rewrite Hc in Hfit.
  unfold dispatch, bind, handle, ret, handleSubmit, handleGeoChoice.
  rewrite Hc, Hfit. split; apply render_kept; exact Hren.
Qed.

(** A session on an empty data set. *)
Lemma dispatch_without_country_witness :
  @dispatch latin1Runtime [] Submit (fst (@mount latin1Runtime [] [])) [3]%nat
  = (fst (@mount latin1Runtime [] []), [3]%nat)
  /\ @dispatch latin1Runtime [] (ChooseOption (lit "Yes"))
       (fst (@mount latin1Runtime [] [])) [3]%nat
     = (fst (@mount latin1Runtime [] []), [3]%nat).
Proof.
  apply (@dispatch_without_country latin1Runtime []).
  - apply reachable_mount.
  - reflexivity.
Defined.

(** ** [shuffle], every order *)

Lemma swap_length {A} (i j : nat) (l : list A) :
  length (swap i j l) = length l.
Proof.
  unfold swap. destruct (l !! i), (l !! j); try reflexivity.
  rewrite !length_insert. reflexivity.
Qed.

Lemma swap_lookup_l {A} (i j : nat) (l : list A) (y : A) :
  (i < length l)%nat -> l !! j = Some y -> swap i j l !! i = Some y.
Proof.
  intros Hi Hj. unfold swap.
  destruct (lookup_lt_is_Some_2 l i Hi) as [x Hx]. rewrite Hx, Hj.
  destruct (decide (i = j)) as [->|Hne].
  - rewrite list_lookup_insert_eq by (rewrite length_insert; lia).
    congruence.
  - rewrite list_lookup_insert_ne by congruence.
    apply list_lookup_insert_eq. exact Hi.
Qed.

Lemma swap_drop {A} (i j n : nat) (l : list A) :
  (i < n)%nat -> (j < n)%nat -> drop n (swap i j l) = drop n l.
Proof.
  intros Hi Hj. unfold swap. destruct (l !! i), (l !! j); try reflexivity.
  rewrite !drop_insert_lt by assumption. reflexivity.
Qed.

Lemma swap_take {A} (i j n : nat) (l : list A) :
  (i < n)%nat -> (j < n)%nat -> take n (swap i j l) ≡ₚ take n l.
Proof.
  intros Hi Hj.
  apply (Permutation_app_inv_r (drop n l)).
  rewrite <- (swap_drop i j n l Hi Hj) at 1.
  rewrite !take_drop. apply swap_Permutation.
Qed.

Lemma shuffle_loop_step {A} (i j : nat) (result : list A) (src : list nat) :
  (j <= S i)%nat ->
  shuffle_loop (S i) result (j :: src) = shuffle_loop i (swap (S i) j result) src.
Proof.
  intros Hj. simpl. unfold bind, randomBelow.
  rewrite Nat.mod_small by lia. reflexivity.
Qed.

Lemma shuffle_loop_reaches {A} (i : nat) (result target : list A) :
  (i < length result)%nat ->
  length result = length target ->
  take (S i) result ≡ₚ take (S i) target ->
  drop (S i) result = drop (S i) target ->
  exists src, fst (shuffle_loop i result src) = target.
Proof.
  revert result. induction i as [|i IH]; intros result Hi Hlen Htake Hdrop.
  - exists []. simpl.
    rewrite <- (take_drop 1 result), <- (take_drop 1 target), Hdrop.
    f_equal.
    destruct result as [|x result]; [simpl in Hi; lia|].
    destruct target as [|y target]; [discriminate|].
    simpl in *. apply Permutation_singleton_inj in Htake.
    rewrite Htake. reflexivity.
  - destruct (lookup_lt_is_Some_2 target (S i)) as [y Hy]; [lia|].
    assert (y ∈ take (S (S i)) result) as Hin.
    { rewrite Htake. apply (list_elem_of_lookup_2 _ (S i)).
      rewrite lookup_take_lt by lia. exact Hy. }
    apply list_elem_of_lookup_1 in Hin as [j Hj].
    apply lookup_take_Some in Hj as [Hj Hjlt].
    pose proof (swap_lookup_l (S i) j result y Hi Hj) as Hswap.
    destruct (IH (swap (S i) j result)) as [src Hsrc].
    + rewrite swap_length. lia.
    + rewrite swap_length. exact Hlen.
    + apply (Permutation_app_inv_r [y]).
      rewrite <- (take_S_r _ _ _ Hswap), <- (take_S_r _ _ _ Hy).
      rewrite swap_take by lia. exact Htake.
    + rewrite (drop_S _ _ _ Hswap), (drop_S _ _ _ Hy).
      rewrite swap_drop by lia. rewrite Hdrop. reflexivity.
    + exists (j :: src). rewrite shuffle_loop_step by lia. exact Hsrc.
Qed.

Lemma shuffle_loop_draws {A} (i : nat) (result : list A) (src : list nat) :
  snd (shuffle_loop i result src) = drop i src.
Proof.
  revert result src. induction i as [|i IH]; intros result src;
    [reflexivity|].
  simpl. unfold bind, randomBelow.
  destruct src as [|r src]; rewrite IH; [apply drop_nil | reflexivity].
Qed.

(** X10. The outcomes of [shuffle] are exactly the orderings of its
    argument: what it returns is a permutation of the array, every
    permutation of the array is returned for some draws, and it takes one
    draw for each element but the first. *)
Theorem shuffle_outcomes {A} (array : list A) :
  (forall src, fst (shuffle array src) ≡ₚ array)
  /\ (forall target, target ≡ₚ array ->
        exists src, fst (shuffle array src) = target)
  /\ (forall src, snd (shuffle array src) = drop (length array - 1) src).
Proof.
  split; [intros src; apply shuffle_Permutation|].
  split; [|intros src; apply shuffle_loop_draws].
  intros target Hp. unfold shuffle.
  destruct array as [|a array].
  - apply Permutation_nil_r in Hp as ->. exists []. reflexivity.
  - apply shuffle_loop_reaches.
    + simpl. lia.
    + symmetry. apply Permutation_length, Hp.
    + rewrite !take_ge.
      * symmetry. exact Hp.
      * rewrite (Permutation_length Hp). simpl. lia.
      * simpl. lia.
    + rewrite !drop_ge.
      * reflexivity.
      * rewrite (Permutation_length Hp). simpl. lia.
      * simpl. lia.
Qed.

(** Three elements, in the reverse order. *)
Lemma shuffle_outcomes_witness :
  exists src, fst (shuffle [1; 2; 3]%nat src) = [3; 2; 1]%nat.
Proof.
  destruct (@shuffle_outcomes nat [1; 2; 3]%nat) as (_ & Hall & _).
  apply Hall.
  apply (Permutation_rev [3; 2; 1]%nat).
Defined.

(** ** Events that keep the level *)

Section Static.
Context `{RT : JsRuntime}.

Lemma handle_static (detailList : list (option Detail.t)) (ev : Event)
    (h : Hooks) (src : list nat) :
  ev <> Restart -> ev <> TimerFires ->
  snd (handle detailList ev h src) = src
  /\ levelIndex (fst (handle detailList ev h src)) = levelIndex h
  /\ countries (fst (handle detailList ev h src)) = countries h
  /\ poolId (fst (handle detailList ev h src)) = poolId h
  /\ geoDeps (fst (handle detailList ev h src)) = geoDeps h
  /\ geoQuestion (fst (handle detailList ev h src)) = geoQuestion h.
Proof.
  intros Hr Ht. destruct ev; try congruence; simpl.
  - repeat split.
  - unfold handleSubmit. destruct (currentCountry h) as [c|];
      [|repeat split].
    destruct (str_truthy _); simpl; [|repeat split].
    destruct (step h); repeat (destruct (str_eqb _ _)); repeat split.
  - unfold handleGeoChoice. destruct (geoQuestion h) as [q|] eqn:Hq;
      [|repeat split; congruence].
    destruct (str_eqb _ _); simpl; repeat split; congruence.
  - repeat split.
Qed.

Lemma dispatch_static (detailList : list (option Detail.t)) (ev : Event)
    (h : Hooks) (src : list nat) :
  rendered h -> ev <> Restart -> ev <> TimerFires ->
  dispatch detailList ev h src = (fst (handle detailList ev h src), src)
  /\ rendered (fst (handle detailList ev h src)).
Proof.
  intros Hren Hr Ht.
  destruct (handle_static detailList ev h src Hr Ht)
    as (Hsrc & Hl & Hc & Hp & Hd & Hq).
  assert (rendered (fst (handle detailList ev h src))) as Hren'.
  { unfold rendered, currentRef in *. rewrite Hd, Hl, Hc, Hp. exact Hren. }
  split; [|exact Hren'].
  unfold dispatch, bind.
  destruct (handle detailList ev h src) as [h1 src1]. simpl in *.
  subst src1. apply render_kept. exact Hren'.
Qed.

Lemma render_setGeoMemo (h : Hooks) (src : list nat) :
  exists deps q, fst (render h src) = setGeoMemo deps q h.
Proof.
  unfold render. destruct (bool_decide _).
  - exists (geoDeps h), (geoQuestion h). destruct h. reflexivity.
  - unfold computeGeoQuestion. destruct (currentCountry h) as [c|].
    + unfold bind. destruct (buildGeoQuestion c src) as [q src'].
      eexists. eexists. reflexivity.
    + eexists. eexists. reflexivity.
Qed.

Lemma run_cons (detailList : list (option Detail.t)) (ev : Event)
    (evs : list Event) (h : Hooks) (src : list nat) :
  run detailList (ev :: evs) h src
  = run detailList evs (fst (dispatch detailList ev h src))
      (snd (dispatch detailList ev h src)).
Proof.
  simpl. unfold bind. destruct (dispatch detailList ev h src). reflexivity.
Qed.

Lemma handleSubmit_country_right (h : Hooks) (c : Country) :
  currentCountry h = Some c -> step h = StepCountry ->
  normalizeAnswer (answer h) <> [] ->
  normalizeAnswer (answer h) = normalizeAnswer (name c) ->
  handleSubmit h = handleCorrect (Some StepCapital) (setAttempts S h).
Proof.
  intros Hc Hs Hne Heq. unfold handleSubmit. rewrite Hc, Hs.
  destruct (normalizeAnswer (answer h)) as [|u cleaned] eqn:Hin;
    [congruence|]. simpl negb. cbv iota.
  rewrite (proj2 (str_eqb_eq _ _)) by congruence. reflexivity.
Qed.

Lemma handleSubmit_capital_right (h : Hooks) (c : Country) :
  currentCountry h = Some c -> step h = StepCapital ->
  normalizeAnswer (answer h) <> [] ->
  normalizeAnswer (answer h) = normalizeAnswer (capital c) ->
  handleSubmit h = handleCorrect (Some StepGeo) (setAttempts S h).
Proof.
  intros Hc Hs Hne Heq. unfold handleSubmit. rewrite Hc, Hs.
  destruct (normalizeAnswer (answer h)) as [|u cleaned] eqn:Hin;
    [congruence|]. simpl negb. cbv iota.
  rewrite (proj2 (str_eqb_eq _ _)) by congruence. reflexivity.
Qed.

Lemma handleGeoChoice_right (h : Hooks) (q : GeoQuestion) (opt : jsstring) :
  geoQuestion h = Some q ->
  normalizeAnswer opt = normalizeAnswer (Geo.answer q) ->
  handleGeoChoice opt h
  = setTimers (timers h ++ [finished h])
      (handleCorrect (Some StepCountry)
         (setAttempts S (setSelectedOption (Some opt) h))).
Proof.
  intros Hq Heq. unfold handleGeoChoice. rewrite Hq.
  rewrite (proj2 (str_eqb_eq _ _)) by exact Heq. reflexivity.
Qed.

End Static.

(** X11. Typing, a submission, a choice and the hint toggle keep the pool
    and the level; in a rendered state they draw nothing and the memoized
    question stays the one it was.  The level moves only when a timer
    fires, by one, and a restart puts it back to 0. *)
Theorem dispatch_keeps_level `{RT : JsRuntime}
    (detailList : list (option Detail.t)) (ev : Event) (h : Hooks)
    (src : list nat) :
  (ev <> Restart -> ev <> TimerFires ->
   levelIndex (fst (dispatch detailList ev h src)) = levelIndex h
   /\ countries (fst (dispatch detailList ev h src)) = countries h
   /\ (rendered h ->
       snd (dispatch detailList ev h src) = src
       /\ geoQuestion (fst (dispatch detailList ev h src)) = geoQuestion h))
  /\ (ev = TimerFires ->
      countries (fst (dispatch detailList ev h src)) = countries h
      /\ (levelIndex (fst (dispatch detailList ev h src)) = levelIndex h
          \/ levelIndex (fst (dispatch detailList ev h src))
             = S (levelIndex h)))
  /\ (ev = Restart ->
      levelIndex (fst (dispatch detailList ev h src)) = 0%nat).
Proof.
  split; [|split].
  - intros Hr Ht.
    destruct (handle_static detailList ev h src Hr Ht)
      as (Hsrc & Hl & Hc & Hp & Hd & Hq).
    assert (levelIndex (fst (dispatch detailList ev h src)) = levelIndex h
            /\ countries (fst (dispatch detailList ev h src)) = countries h)
      as [Hl' Hc'].
    { unfold dispatch, bind.
      destruct (handle detailList ev h src) as [h1 src1]. simpl in *.
      destruct (render_setGeoMemo h1 src1) as (deps & q & ->).
      simpl. split; assumption. }
    split; [exact Hl'|]. split; [exact Hc'|].
    intros Hren.
    destruct (dispatch_static detailList ev h src Hren Hr Ht) as [-> _].
    simpl. split; [reflexivity | exact Hq].
  - intros ->. unfold dispatch, bind. simpl.
    destruct (timers h) as [|f rest]; unfold ret.
    + destruct (render_setGeoMemo h src) as (deps & q & ->). simpl. auto.
    + destruct (render_setGeoMemo (handleAdvance f (setTimers rest h)) src)
        as (deps & q & ->).
      destruct f; simpl; auto.
  - intros ->. unfold dispatch, bind. simpl. unfold restart, bind.
    destruct (buildPool detailList src) as [built src']. unfold ret.
    match goal with |- context [render ?x ?s] =>
      destruct (render_setGeoMemo x s) as (deps & q & ->) end.
    reflexivity.
Qed.

(** A wrong answer on France keeps the level and draws nothing. *)
Lemma dispatch_keeps_level_witness :
  levelIndex (fst (@dispatch latin1Runtime sampleDetails Submit
                     (sessionAt [france] StepCountry (lit "spain") None)
                     [4; 2]%nat)) = 0%nat
  /\ countries (fst (@dispatch latin1Runtime sampleDetails Submit
                       (sessionAt [france] StepCountry (lit "spain") None)
                       [4; 2]%nat)) = [france]
  /\ snd (@dispatch latin1Runtime sampleDetails Submit
            (sessionAt [france] StepCountry (lit "spain") None)
            [4; 2]%nat) = [4; 2]%nat.
Proof.
  destruct (@dispatch_keeps_level latin1Runtime sampleDetails Submit
              (sessionAt [france] StepCountry (lit "spain") None)
              [4; 2]%nat) as (Hstatic & _ & _).
  destruct Hstatic as (Hl & Hc & Hren); [discriminate | discriminate |].
  split; [exact Hl|]. split; [exact Hc|].
  apply Hren. reflexivity.
Defined.

Lemma computeGeoQuestion_setGeoMemo (h : Hooks) (src : list nat) :
  exists q, fst (computeGeoQuestion h src) = setGeoMemo (currentRef h) q h.
Proof.
  unfold computeGeoQuestion. destruct (currentCountry h) as [c|].
  - unfold bind. destruct (buildGeoQuestion c src) as [q src'].
    eexists. reflexivity.
  - eexists. reflexivity.
Qed.

Lemma level_cleared_run `{RT : JsRuntime}
    (detailList : list (option Detail.t)) (h : Hooks) (c : Country)
    (q : GeoQuestion) (a1 a2 opt : jsstring) (src : list nat) :
  rendered h ->
  step h = StepCountry ->
  currentCountry h = Some c ->
  geoQuestion h = Some q ->
  finished h = false ->
  timers h = [] ->
  normalizeAnswer a1 <> [] ->
  normalizeAnswer a1 = normalizeAnswer (name c) ->
  normalizeAnswer a2 <> [] ->
  normalizeAnswer a2 = normalizeAnswer (capital c) ->
  normalizeAnswer opt = normalizeAnswer (Geo.answer q) ->
  (levelIndex
     (fst (run detailList
             [ChangeAnswer a1; Submit; ChangeAnswer a2; Submit;
              ChooseOption opt] h src)) = levelIndex h
   /\ step
        (fst (run detailList
                [ChangeAnswer a1; Submit; ChangeAnswer a2; Submit;
                 ChooseOption opt] h src)) = StepCountry
   /\ timers
        (fst (run detailList
                [ChangeAnswer a1; Submit; ChangeAnswer a2; Submit;
                 ChooseOption opt] h src)) = [false]
   /\ snd (run detailList
             [ChangeAnswer a1; Submit; ChangeAnswer a2; Submit;
              ChooseOption opt] h src) = src)
  /\ run detailList
       [ChangeAnswer a1; Submit; ChangeAnswer a2; Submit;
        ChooseOption opt; TimerFires] h src
     = computeGeoQuestion
         {| countries := countries h; levelIndex := S (levelIndex h);
            step := StepCountry; answer := []; feedback := [];
            attempts := 3 + attempts h; correctCount := 3 + correctCount h;
            streak := 3 + streak h; selectedOption := None;
            showHint := showHint h; poolId := poolId h;
            geoDeps := geoDeps h; geoQuestion := Some q; timers := [] |}
         src.
Proof.
  intros Hren Hs Hc Hq Hfin Ht Hn1 He1 Hn2 He2 Heo.
  (* typing the country *)
  destruct (dispatch_static detailList (ChangeAnswer a1) h src Hren)
    as [E1 R1]; [discriminate | discriminate |].
  simpl fst in E1, R1.
  (* submitting it *)
  destruct (dispatch_static detailList Submit (setAnswer a1 h) src R1)
    as [E2 R2]; [discriminate | discriminate |].
  simpl fst in E2, R2.
  rewrite (handleSubmit_country_right (setAnswer a1 h) c Hc Hs Hn1 He1)
    in E2, R2.
  set (h2 := handleCorrect (Some StepCapital)
               (setAttempts S (setAnswer a1 h))) in *.
  (* typing the capital *)
  destruct (dispatch_static detailList (ChangeAnswer a2) h2 src R2)
    as [E3 R3]; [discriminate | discriminate |].
  simpl fst in E3, R3.
  (* submitting it *)
  destruct (dispatch_static detailList Submit (setAnswer a2 h2) src R3)
    as [E4 R4]; [discriminate | discriminate |].
  simpl fst in E4, R4.
  rewrite (handleSubmit_capital_right (setAnswer a2 h2) c Hc eq_refl Hn2 He2)
    in E4, R4.
  set (h4 := handleCorrect (Some StepGeo)
               (setAttempts S (setAnswer a2 h2))) in *.
  (* choosing the option *)
  destruct (dispatch_static detailList (ChooseOption opt) h4 src R4)
    as [E5 R5]; [discriminate | discriminate |].
  simpl fst in E5, R5.
  rewrite (handleGeoChoice_right h4 q opt Hq Heo) in E5, R5.
  change (finished h4) with (finished h) in E5, R5.
  change (timers h4) with (timers h) in E5, R5.
  rewrite Hfin, Ht in E5, R5. simpl app in E5, R5.
  set (h5 := setTimers [false]
               (handleCorrect (Some StepCountry)
                  (setAttempts S (setSelectedOption (Some opt) h4)))) in *.
  assert (run detailList
            [ChangeAnswer a1; Submit; ChangeAnswer a2; Submit;
             ChooseOption opt] h src = (h5, src)) as Hfive.
  { rewrite run_cons, E1. simpl fst; simpl snd.
    rewrite run_cons, E2. simpl fst; simpl snd.
    rewrite run_cons, E3. simpl fst; simpl snd.
    rewrite run_cons, E4. simpl fst; simpl snd.
    rewrite run_cons, E5. reflexivity. }
  split.
  - rewrite Hfive. repeat split.
  - rewrite run_cons, E1. simpl fst; simpl snd.
    rewrite run_cons, E2. simpl fst; simpl snd.
    rewrite run_cons, E3. simpl fst; simpl snd.
    rewrite run_cons, E4. simpl fst; simpl snd.
    rewrite run_cons, E5. simpl fst; simpl snd.
    simpl run. unfold bind at 1.
    destruct (dispatch detailList TimerFires h5 src) as [h6 src6] eqn:E6.
    unfold ret. rewrite <- E6.
    unfold dispatch, bind, handle. 
    change (timers h5) with [false]. unfold ret.
    unfold render.
    assert (currentRef (handleAdvance false (setTimers [] h5))
            <> geoDeps (handleAdvance false (setTimers [] h5))) as Hne.
    { change (geoDeps (handleAdvance false (setTimers [] h5)))
        with (geoDeps h).
      rewrite Hren. unfold currentRef.
      change (levelIndex (handleAdvance false (setTimers [] h5)))
        with (S (levelIndex h)).
      change (countries (handleAdvance false (setTimers [] h5)))
        with (countries h).
      change (poolId (handleAdvance false (setTimers [] h5)))
        with (poolId h).
      destruct (_ <? _)%nat, (_ <? _)%nat eqn:E; try congruence.
      - intros [= Hx]. lia.
      - apply Nat.ltb_ge in E. unfold currentCountry in Hc.
        apply lookup_lt_Some in Hc. lia. }
    rewrite bool_decide_eq_false_2 by exact Hne.
    unfold computeGeoQuestion.
    change (currentCountry (handleAdvance false (setTimers [] h5)))
      with (countries h !! S (levelIndex h)).
    unfold currentCountry. cbn [countries levelIndex].
    unfold currentRef.
    destruct (countries h !! S (levelIndex h)) as [c'|]; reflexivity.
Qed.

(** X12. A level is cleared by three right answers and the timer.  From a
    rendered state in the Country step with a current country, no pending
    timer and the session not finished: typing and submitting the country,
    typing and submitting the capital, and choosing the right option count
    three attempts, three correct answers and three more in the streak,
    put the step back to Country at once and leave one timer pending, the
    level still the same; when the timer fires the level is the next one,
    with the input, the feedback and the selected option cleared, and the
    question is one for the new current country; the session is then
    finished exactly when the level cleared was the last one. *)
Theorem level_cleared `{RT : JsRuntime}
    (detailList : list (option Detail.t)) (h : Hooks) (c : Country)
    (q : GeoQuestion) (a1 a2 opt : jsstring) (src : list nat) :
  rendered h ->
  step h = StepCountry ->
  currentCountry h = Some c ->
  geoQuestion h = Some q ->
  finished h = false ->
  timers h = [] ->
  normalizeAnswer a1 <> [] ->
  normalizeAnswer a1 = normalizeAnswer (name c) ->
  normalizeAnswer a2 <> [] ->
  normalizeAnswer a2 = normalizeAnswer (capital c) ->
  normalizeAnswer opt = normalizeAnswer (Geo.answer q) ->
  (levelIndex
     (fst (run detailList
             [ChangeAnswer a1; Submit; ChangeAnswer a2; Submit;
              ChooseOption opt] h src)) = levelIndex h
   /\ step
        (fst (run detailList
                [ChangeAnswer a1; Submit; ChangeAnswer a2; Submit;
                 ChooseOption opt] h src)) = StepCountry
   /\ timers
        (fst (run detailList
                [ChangeAnswer a1; Submit; ChangeAnswer a2; Submit;
                 ChooseOption opt] h src)) = [false]
   /\ snd (run detailList
             [ChangeAnswer a1; Submit; ChangeAnswer a2; Submit;
              ChooseOption opt] h src) = src)
  /\ (levelIndex
        (fst (run detailList
                [ChangeAnswer a1; Submit; ChangeAnswer a2; Submit;
                 ChooseOption opt; TimerFires] h src)) = S (levelIndex h)
      /\ countries
           (fst (run detailList
                   [ChangeAnswer a1; Submit; ChangeAnswer a2; Submit;
                    ChooseOption opt; TimerFires] h src)) = countries h
      /\ step
           (fst (run detailList
                   [ChangeAnswer a1; Submit; ChangeAnswer a2; Submit;
                    ChooseOption opt; TimerFires] h src)) = StepCountry
      /\ attempts
           (fst (run detailList
                   [ChangeAnswer a1; Submit; ChangeAnswer a2; Submit;
                    ChooseOption opt; TimerFires] h src))
         = (3 + attempts h)%nat
      /\ correctCount
           (fst (run detailList
                   [ChangeAnswer a1; Submit; ChangeAnswer a2; Submit;
                    ChooseOption opt; TimerFires] h src))
         = (3 + correctCount h)%nat
      /\ streak
           (fst (run detailList
                   [ChangeAnswer a1; Submit; ChangeAnswer a2; Submit;
                    ChooseOption opt; TimerFires] h src))
         = (3 + streak h)%nat
      /\ answer
           (fst (run detailList
                   [ChangeAnswer a1; Submit; ChangeAnswer a2; Submit;
                    ChooseOption opt; TimerFires] h src)) = []
      /\ feedback
           (fst (run detailList
                   [ChangeAnswer a1; Submit; ChangeAnswer a2; Submit;
                    ChooseOption opt; TimerFires] h src)) = []
      /\ selectedOption
           (fst (run detailList
                   [ChangeAnswer a1; Submit; ChangeAnswer a2; Submit;
                    ChooseOption opt; TimerFires] h src)) = None
      /\ timers
           (fst (run detailList
                   [ChangeAnswer a1; Submit; ChangeAnswer a2; Submit;
                    ChooseOption opt; TimerFires] h src)) = []
      /\ question_fits
           (fst (run detailList
                   [ChangeAnswer a1; Submit; ChangeAnswer a2; Submit;
                    ChooseOption opt; TimerFires] h src))
      /\ (finished
            (fst (run detailList
                    [ChangeAnswer a1; Submit; ChangeAnswer a2; Submit;
                     ChooseOption opt; TimerFires] h src)) = true
          <-> S (levelIndex h) = totalLevels h)).
Proof.
  intros Hren Hs Hc Hq Hfin Ht Hn1 He1 Hn2 He2 Heo.
  destruct (level_cleared_run detailList h c q a1 a2 opt src
              Hren Hs Hc Hq Hfin Ht Hn1 He1 Hn2 He2 Heo) as [Hfive Hsix].
  split; [exact Hfive|]. rewrite Hsix.
  match goal with |- context [computeGeoQuestion ?x src] =>
    destruct (computeGeoQuestion_fits x src) as (Hfit & _ & _ & _);
    destruct (computeGeoQuestion_setGeoMemo x src) as [q' Hx] end.
  split; [rewrite Hx; reflexivity|].
  split; [rewrite Hx; reflexivity|].
  split; [rewrite Hx; reflexivity|].
  split; [rewrite Hx; reflexivity|].
  split; [rewrite Hx; reflexivity|].
  split; [rewrite Hx; reflexivity|].
  split; [rewrite Hx; reflexivity|].
  split; [rewrite Hx; reflexivity|].
  split; [rewrite Hx; reflexivity|].
  split; [rewrite Hx; reflexivity|].
  split; [exact Hfit|].
  rewrite Hx. unfold finished in *. unfold totalLevels in *.
  cbn [countries levelIndex setGeoMemo].
  apply lookup_lt_Some in Hc.
  rewrite andb_true_iff, Nat.ltb_lt, Nat.leb_le.
  apply andb_false_iff in Hfin.
  rewrite Nat.ltb_ge, Nat.leb_gt in Hfin. lia.
Qed.

(** France cleared on a pool of France and Chad: the session is at Chad. *)
Lemma level_cleared_witness :
  levelIndex
    (fst (@run latin1Runtime sampleDetails
            [ChangeAnswer (lit "france"); Submit; ChangeAnswer (lit "PARIS");
             Submit; ChooseOption (lit "No"); TimerFires]
            (sessionAt [france; chad] StepCountry [] (Some franceLandlocked))
            [0; 0; 0]%nat)) = 1%nat
  /\ correctCount
       (fst (@run latin1Runtime sampleDetails
               [ChangeAnswer (lit "france"); Submit;
                ChangeAnswer (lit "PARIS"); Submit; ChooseOption (lit "No");
                TimerFires]
               (sessionAt [france; chad] StepCountry []
                  (Some franceLandlocked))
               [0; 0; 0]%nat)) = 3%nat.
Proof.
  destruct (@level_cleared latin1Runtime sampleDetails
              (sessionAt [france; chad] StepCountry []
                 (Some franceLandlocked))
              france franceLandlocked (lit "france") (lit "PARIS") (lit "No")
              [0; 0; 0]%nat) as (_ & Hl & _ & _ & _ & Hk & _).
  - reflexivity.
  - reflexivity.
  - reflexivity.
  - reflexivity.
  - reflexivity.
  - reflexivity.
  - vm_compute. discriminate.
  - vm_compute. reflexivity.
  - vm_compute. discriminate.
  - vm_compute. reflexivity.
  - vm_compute. reflexivity.
  - split; [exact Hl | exact Hk].
Defined.

(** ** Restart *)

Lemma computeGeoQuestion_question (h : Hooks) (src : list nat) :
  geoQuestion (fst (computeGeoQuestion h src))
  = (fun c => fst (buildGeoQuestion c src)) <$> currentCountry h
  /\ snd (computeGeoQuestion h src)
     = from_option (fun c => snd (buildGeoQuestion c src)) src
         (currentCountry h).
Proof.
  unfold computeGeoQuestion. destruct (currentCountry h) as [c|]; simpl.
  - unfold bind. destruct (buildGeoQuestion c src). split; reflexivity.
  - split; reflexivity.
Qed.

(** X13. The restart button gives the session a first render would give
    from the same draws: the same pool, the same question, the same draws
    left, the level 0, the Country step, empty input and feedback, no
    selected option and the three counters at 0.  The hint toggle and the
    pending timers are not reset. *)
Theorem restart_is_a_new_session `{RT : JsRuntime}
    (detailList : list (option Detail.t)) (h : Hooks) (src : list nat) :
  reachable detailList h ->
  countries (fst (dispatch detailList Restart h src))
  = countries (fst (mount detailList src))
  /\ geoQuestion (fst (dispatch detailList Restart h src))
     = geoQuestion (fst (mount detailList src))
  /\ snd (dispatch detailList Restart h src) = snd (mount detailList src)
  /\ levelIndex (fst (dispatch detailList Restart h src)) = 0%nat
  /\ step (fst (dispatch detailList Restart h src)) = StepCountry
  /\ answer (fst (dispatch detailList Restart h src)) = []
  /\ feedback (fst (dispatch detailList Restart h src)) = []
  /\ selectedOption (fst (dispatch detailList Restart h src)) = None
  /\ attempts (fst (dispatch detailList Restart h src)) = 0%nat
  /\ correctCount (fst (dispatch detailList Restart h src)) = 0%nat
  /\ streak (fst (dispatch detailList Restart h src)) = 0%nat
  /\ showHint (fst (dispatch detailList Restart h src)) = showHint h
  /\ timers (fst (dispatch detailList Restart h src)) = timers h.
Proof.
  intros Hr. destruct (reachable_fits detailList h Hr) as [Hren Hfit].
  unfold dispatch, handle, restart, mount, bind.
  destruct (buildPool detailList src) as [pool src']. unfold ret.
  match goal with |- context [render ?x _] => set (r := x) end.
  match goal with |- context [computeGeoQuestion ?x _] => set (m := x) end.
  assert (currentCountry r = currentCountry m) as Hsame by reflexivity.
  destruct (computeGeoQuestion_question m src') as [Hmq Hms].
  destruct (computeGeoQuestion_setGeoMemo m src') as [qm Hm].
  rewrite Hmq, Hms, Hm. unfold render. case_bool_decide as Hd.
  - (* no current country before, none after *)
    assert (currentRef r = None) as Hnone.
    { destruct (currentRef r) as [[p i]|] eqn:E; [|reflexivity].
      apply currentRef_Some in E as [-> _].
      change (geoDeps r) with (geoDeps h) in Hd. rewrite Hren in Hd.
      symmetry in Hd. apply currentRef_Some in Hd as [Hp _].
      change (poolId r) with (S (poolId h)) in Hp. lia. }
    rewrite Hnone in Hd. change (geoDeps r) with (geoDeps h) in Hd.
    rewrite Hren in Hd. symmetry in Hd.
    apply currentRef_None in Hd. apply currentRef_None in Hnone.
    unfold question_fits in Hfit. rewrite Hd in Hfit.
    rewrite <- Hsame, Hnone. simpl.
    change (geoQuestion r) with (geoQuestion h). rewrite Hfit.
    repeat split.
  - destruct (computeGeoQuestion_question r src') as [Hrq Hrs].
    destruct (computeGeoQuestion_setGeoMemo r src') as [qr Hrr].
    rewrite Hrq, Hrs, Hrr, Hsame. repeat split.
Qed.

(** A restart after the first render of the sample data. *)
Lemma restart_is_a_new_session_witness :
  countries
    (fst (@dispatch latin1Runtime sampleDetails Restart
            (fst (@mount latin1Runtime sampleDetails [1]%nat)) [2; 1]%nat))
  = countries (fst (@mount latin1Runtime sampleDetails [2; 1]%nat))
  /\ geoQuestion
       (fst (@dispatch latin1Runtime sampleDetails Restart
               (fst (@mount latin1Runtime sampleDetails [1]%nat))
               [2; 1]%nat))
     = geoQuestion (fst (@mount latin1Runtime sampleDetails [2; 1]%nat)).
Proof.
  destruct (@restart_is_a_new_session latin1Runtime sampleDetails
              (fst (@mount latin1Runtime sampleDetails [1]%nat)) [2; 1]%nat)
    as (Hc & Hq & _).
  - apply reachable_mount.
  - split; [exact Hc | exact Hq].
Defined.

(** ** The progress bar *)

Lemma progress_table_100 : progress_table 100 = true.
Proof. vm_compute. reflexivity. Qed.

Lemma progress_table_spec (bound i t : nat) :
  progress_table bound = true ->
  (0 < t <= bound)%nat -> (i <= S t)%nat -> progress_ok i t = true.
Proof.
  unfold progress_table. intros Ht Hb Hi.
  rewrite List.forallb_forall in Ht.
  specialize (Ht t). rewrite List.forallb_forall in Ht.
  apply Ht; apply List.in_seq; lia.
Qed.

Lemma progressPercent_clamped (i t : nat) :
  (t <= i)%nat -> progressPercent i t = progressPercent t t.
Proof.
  intros Hi. unfold progressPercent. destruct t; [reflexivity|].
  rewrite Nat.min_r by lia. rewrite Nat.min_id. reflexivity.
Qed.

Lemma progress_ok_all (i t : nat) :
  (0 < t <= 100)%nat -> progress_ok i t = true.
Proof.
  intros Ht. destruct (Nat.le_gt_cases i (S t)) as [Hi|Hi].
  - apply (progress_table_spec 100 i t progress_table_100 Ht Hi).
  - pose proof (progress_table_spec 100 t t progress_table_100 Ht) as Hok.
    unfold progress_ok in *.
    rewrite (progressPercent_clamped i t) by lia.
    rewrite (progressPercent_clamped (S i) t) by lia.
    rewrite (progressPercent_clamped (S t) t) in Hok by lia.
    specialize (Hok ltac:(lia)).
    destruct (progressPercent t t) as [z|]; [|discriminate].
    rewrite !andb_true_iff in *.
    destruct Hok as ((((H0 & H100) & Hmono) & Hzero) & Hfull).
    repeat split; try assumption.
    + destruct (Nat.eqb_spec i 0); [lia | reflexivity].
    + rewrite Nat.leb_refl in Hfull.
      destruct (Nat.leb_spec t i); [exact Hfull | lia].
Qed.

(** X14. The progress bar of every state shows a whole number of percent
    between 0 and 100: 0 at the first level, 100 exactly when every level
    of the pool is passed, and never less after the level has moved on by
    one.  With an empty pool it shows 0. *)
Theorem progressPercent_bounds (h : Hooks) :
  exists shown next : Z,
    progressPercent (levelIndex h) (totalLevels h) = Some shown
    /\ progressPercent (S (levelIndex h)) (totalLevels h) = Some next
    /\ (0 <= shown <= 100)%Z
    /\ (shown <= next)%Z
    /\ (levelIndex h = 0%nat -> shown = 0%Z)
    /\ (totalLevels h = 0%nat -> shown = 0%Z)
    /\ ((0 < totalLevels h)%nat ->
        shown = 100%Z <-> (totalLevels h <= levelIndex h)%nat).
Proof.
  destruct (totalLevels h) as [|t] eqn:Ht.
  - exists 0%Z, 0%Z. simpl. repeat split; try lia.
  - assert (0 < S t <= 100)%nat as Hb.
    { unfold totalLevels, TOTAL_LEVELS in Ht. lia. }
    pose proof (progress_ok_all (levelIndex h) (S t) Hb) as Hok.
    unfold progress_ok in Hok.
    destruct (progressPercent (levelIndex h) (S t)) as [z|]; [|discriminate].
    destruct (progressPercent (S (levelIndex h)) (S t)) as [z'|];
      [|discriminate].
    exists z, z'.
    rewrite !andb_true_iff, !Z.leb_le in Hok.
    destruct Hok as ((((H0 & H100) & Hmono) & Hzero) & Hfull).
    repeat split; try assumption; try lia.
    + intros Hl. rewrite Hl in Hzero. simpl in Hzero.
      apply Z.eqb_eq, Hzero.
    + intros Hz. apply Nat.leb_le. apply Bool.eqb_prop in Hfull.
      rewrite <- Hfull. apply Z.eqb_eq, Hz.
    + intros Hle. apply Z.eqb_eq. apply Bool.eqb_prop in Hfull.
      rewrite Hfull. apply Nat.leb_le, Hle.
Qed.

(** The progress bar at the first of two levels. *)
Lemma progressPercent_bounds_witness :
  exists shown next : Z,
    progressPercent 0 2 = Some shown
    /\ progressPercent 1 2 = Some next
    /\ (0 <= shown <= 100)%Z
    /\ (shown <= next)%Z.
Proof.
  destruct (progressPercent_bounds
              (sessionAt [france; chad] StepCountry [] None))
    as (shown & next & Hs & Hn & Hb & Hm & _).
  exists shown, next. repeat split; try assumption; apply Hb.
Defined.

(** ** The hint of the Geo step *)

(** X15. In every state of a session with a current country, the hint of
    the Geo step is one of the four phrases on the coastline and the
    driving side (never the fallback), and it does not contain the answer
    of the question on screen. *)
Theorem reachable_geo_hint `{RT : JsRuntime}
    (detailList : list (option Detail.t)) (h : Hooks) (c : Country) :
  reachable detailList h ->
  currentCountry h = Some c ->
  exists q,
    geoQuestion h = Some q
    /\ (hintLine (currentCountry h) StepGeo (geoQuestion h)
        = lit "No coastline."
        \/ hintLine (currentCountry h) StepGeo (geoQuestion h)
           = lit "Touches the sea."
        \/ hintLine (currentCountry h) StepGeo (geoQuestion h)
           = lit "They drive on the left side."
        \/ hintLine (currentCountry h) StepGeo (geoQuestion h)
           = lit "They drive on the right side.")
    /\ includes (hintLine (currentCountry h) StepGeo (geoQuestion h))
         (Geo.answer q) = false.
Proof.
  intros Hr Hc. destruct (reachable_fits detailList h Hr) as [_ Hfit].
  unfold question_fits in Hfit. rewrite Hc in Hfit.
  destruct Hfit as [src Hq]. rewrite Hc, Hq.
  exists (fst (buildGeoQuestion c src)). split; [reflexivity|].
  apply hintLine_geo_qualitative.
Qed.

(** The first render of the sample data. *)
Lemma reachable_geo_hint_witness :
  exists q,
    geoQuestion (fst (@mount latin1Runtime sampleDetails [])) = Some q
    /\ includes
         (@hintLine latin1Runtime
            (currentCountry (fst (@mount latin1Runtime sampleDetails [])))
            StepGeo
            (geoQuestion (fst (@mount latin1Runtime sampleDetails []))))
         (Geo.answer q) = false.
Proof.
  destruct (@reachable_geo_hint latin1Runtime sampleDetails
              (fst (@mount latin1Runtime sampleDetails []))
              singapore) as (q & Hq & _ & Hno).
  - apply reachable_mount.
  - vm_compute. reflexivity.
  - exists q. split; assumption.
Defined.
